(** * ps5.js: grouping utility, Datamuse client, renderers and saved words

    A shallow embedding of [src/ps5.js] and the properties of its
    specification.

    Modelling conventions.
    - JavaScript values that occur as property values and group names are
      the primitives [undefined], [null], booleans, integral Numbers and
      strings.  A Number is an integer [Z] (a safe integer, printed in
      plain decimal by ToString); NaN, negative zero, fractions, Symbols
      and object-valued group names are outside the model.
    - A string is a sequence of code units below 256, one [ascii] each.
    - An item of an input array is an ordinary object holding own data
      properties with primitive values, each name once; names inherited
      from [Object.prototype] are not modelled when an item is read, and
      [Object.prototype] and [Array.prototype] have no enumerable
      property.
    - [Array.prototype.sort] is stable (ECMAScript 2019 and later).
    - The body of a response parses to an array of such items or does
      not parse. *)

From Stdlib Require Import ZArith NArith Bool List String Ascii Lia.
From Stdlib Require Import DecimalString DecimalPos DecimalZ Permutation.
From Stdlib Require Import Sorted OrderedTypeEx.
Import ListNotations.

#[local] Set Warnings "-register-all".

Local Open Scope string_scope.
Local Open Scope list_scope.

(* ================================================================== *)
(** * JavaScript values *)
(* ================================================================== *)

Inductive value : Type :=
| VUndefined
| VNull
| VBool (b : bool)
| VNumber (n : Z)
| VString (s : string).

(** SameValueZero, the key equality of [Map]. *)
Definition same_value_zero (x y : value) : bool :=
  match x, y with
  | VUndefined, VUndefined => true
  | VNull, VNull => true
  | VBool a, VBool b => Bool.eqb a b
  | VNumber a, VNumber b => Z.eqb a b
  | VString a, VString b => String.eqb a b
  | _, _ => false
  end.

(** The abstract operation ToString on primitives. *)
Definition to_string (v : value) : string :=
  match v with
  | VUndefined => "undefined"
  | VNull => "null"
  | VBool true => "true"
  | VBool false => "false"
  | VNumber n => NilZero.string_of_int (Z.to_int n)
  | VString s => s
  end.

(** ToPropertyKey: a value that is no Symbol becomes its string. *)
Definition to_property_key (v : value) : string := to_string v.

(** The default comparison of [Array.prototype.sort] (no comparator):
    [undefined] sorts after everything else, other values are compared by
    the code units of their string forms. *)
Definition sort_compare (x y : value) : comparison :=
  match x, y with
  | VUndefined, VUndefined => Eq
  | VUndefined, _ => Gt
  | _, VUndefined => Lt
  | _, _ => String.compare (to_string x) (to_string y)
  end.

Fixpoint sort_insert (x : value) (l : list value) : list value :=
  match l with
  | [] => [x]
  | y :: l' =>
      match sort_compare x y with
      | Gt => y :: sort_insert x l'
      | _ => x :: l
      end
  end.

(** [array.sort()]: a stable sort by [sort_compare]. *)
Fixpoint js_sort (l : list value) : list value :=
  match l with
  | [] => []
  | x :: l' => sort_insert x (js_sort l')
  end.

(* ================================================================== *)
(** * Insertion-ordered association lists *)
(* ================================================================== *)

Section Assoc.
Context {K V : Type} (eqb : K -> K -> bool).

Fixpoint assoc_get (k : K) (l : list (K * V)) : option V :=
  match l with
  | [] => None
  | (k', v) :: l' => if eqb k k' then Some v else assoc_get k l'
  end.

Definition assoc_has (k : K) (l : list (K * V)) : bool :=
  match assoc_get k l with Some _ => true | None => false end.

(** An existing key keeps its place, a new key goes to the end. *)
Fixpoint assoc_set (k : K) (v : V) (l : list (K * V)) : list (K * V) :=
  match l with
  | [] => [(k, v)]
  | (k', v') :: l' =>
      if eqb k k' then (k', v) :: l' else (k', v') :: assoc_set k v l'
  end.
End Assoc.

(* ================================================================== *)
(** * Ordinary objects and their key order *)
(* ================================================================== *)

(** An array index is a canonical numeric string whose value lies in
    [0, 2^32 - 1). *)
Definition array_index (s : string) : option Z :=
  match NilZero.int_of_string s with
  | Some d =>
      let n := Z.of_int d in
      if (to_string (VNumber n) =? s) && (0 <=? n)%Z && (n <? 4294967295)%Z
      then Some n else None
  | None => None
  end.

Definition is_array_index (s : string) : bool :=
  match array_index s with Some _ => true | None => false end.

Definition index_leb (s t : string) : bool :=
  match array_index s, array_index t with
  | Some a, Some b => (a <=? b)%Z
  | _, _ => true
  end.

Fixpoint index_insert (s : string) (l : list string) : list string :=
  match l with
  | [] => [s]
  | t :: l' => if index_leb s t then s :: l else t :: index_insert s l'
  end.

Fixpoint index_sort (l : list string) : list string :=
  match l with
  | [] => []
  | s :: l' => index_insert s (index_sort l')
  end.

(** OrdinaryOwnPropertyKeys on string keys given in creation order: the
    array indices in ascending numeric order, then the other keys in
    creation order. *)
Definition ordinary_keys (created : list string) : list string :=
  index_sort (filter is_array_index created)
    ++ filter (fun s => negb (is_array_index s)) created.

(** Own data properties in creation order. *)
Definition props (V : Type) : Type := list (string * V).

Definition own_keys {V : Type} (ps : props V) : list string :=
  ordinary_keys (map fst ps).

(** An item of an input array. *)
Definition item : Type := props value.

(** [obj[name]] on an item: [undefined] when the property is missing. *)
Definition get_prop (name : string) (obj : item) : value :=
  match assoc_get String.eqb name obj with
  | Some v => v
  | None => VUndefined
  end.

(** The object built by [groupBy].  [proto = None] stands for the initial
    prototype [Object.prototype]; [result["__proto__"] = g] goes through
    the inherited accessor and replaces the prototype by the array [g]
    and creates no own property. *)
Record grouped : Type := {
  proto : option (list item);
  own : props (list item)
}.

Definition empty_object : grouped := {| proto := None; own := [] |}.

(** [result[key] = g] *)
Definition obj_set (key : string) (g : list item) (result : grouped) : grouped :=
  if key =? "__proto__"
  then {| proto := Some g; own := own result |}
  else {| proto := proto result; own := assoc_set String.eqb key g (own result) |}.

(** The own property [s] of the result, if any. *)
Definition own_get (s : string) (result : grouped) : option (list item) :=
  assoc_get String.eqb s (own result).

(** [Object.keys(result)] *)
Definition object_keys (result : grouped) : list string := own_keys (own result).

(** [result[s]] for an own key [s]. *)
Definition group_at (result : grouped) (s : string) : list item :=
  match own_get s result with Some g => g | None => [] end.

(* ================================================================== *)
(** * groupBy *)
(* ================================================================== *)

(** [Map] from group names to arrays of items, in insertion order. *)
Definition jsmap : Type := list (value * list item).

Definition map_has (k : value) (m : jsmap) : bool := assoc_has same_value_zero k m.
Definition map_get (k : value) (m : jsmap) : option (list item) :=
  assoc_get same_value_zero k m.
Definition map_set (k : value) (g : list item) (m : jsmap) : jsmap :=
  assoc_set same_value_zero k g m.
Definition map_keys (m : jsmap) : list value := map fst m.

(** The second argument of [groupBy]: a property name or a function. *)
Inductive selector : Type :=
| PropName (name : string)
| PropFn (f : item -> value).

(** Lines 17-20: a property name becomes the function reading it. *)
Definition as_function (property : selector) : item -> value :=
  match property with
  | PropName propName => fun obj => get_prop propName obj
  | PropFn f => f
  end.

(** Lines 24-29, one turn of the first loop.  The array stored in the
    [Map] is extended in place; [get] cannot miss, the group was created
    just before. *)
Definition group_step (property : item -> value) (groupedObjects : jsmap)
    (object : item) : jsmap :=
  let groupName := property object in
  let m := if map_has groupName groupedObjects
           then groupedObjects
           else map_set groupName [] groupedObjects in
  match map_get groupName m with
  | Some arr => map_set groupName (arr ++ [object]) m
  | None => m
  end.

(** Lines 22-30: the [Map] after the first loop. *)
Definition group_map (objects : list item) (property : item -> value) : jsmap :=
  fold_left (group_step property) objects [].

(** Line 35, one turn of the second loop; [key] is a key of the [Map],
    so [get] cannot miss. *)
Definition result_step (groupedObjects : jsmap) (result : grouped)
    (key : value) : grouped :=
  match map_get key groupedObjects with
  | Some g => obj_set (to_property_key key) g result
  | None => result
  end.

Definition groupBy (objects : list item) (property : selector) : grouped :=
  let property := as_function property in
  let groupedObjects := group_map objects property in
  fold_left (result_step groupedObjects)
            (js_sort (map_keys groupedObjects)) empty_object.

(* ================================================================== *)
(** * Datamuse client *)
(* ================================================================== *)

Inductive js_error : Type :=
| NetworkError (msg : string)
| SyntaxError (msg : string)
| TypeError (msg : string).

(** A settled promise. *)
Inductive settled (A : Type) : Type :=
| Fulfilled (a : A)
| Rejected (e : js_error).
Arguments Fulfilled {A} a.
Arguments Rejected {A} e.

(** [p.then(f)] with [f] returning a promise. *)
Definition then_ {A B : Type} (p : settled A) (f : A -> settled B) : settled B :=
  match p with
  | Fulfilled a => f a
  | Rejected e => Rejected e
  end.

(** A response of the word service; [response_json] is the outcome of
    [response.json()], the body parsed as an array of word results. *)
Record response : Type := { response_json : settled (list item) }.

(** The application/x-www-form-urlencoded byte serializer used by
    [URLSearchParams.prototype.toString]. *)
Definition hex_digit (n : N) : ascii :=
  if (n <? 10)%N then ascii_of_N (48 + n) else ascii_of_N (55 + n).

Definition form_safe (c : ascii) : bool :=
  let n := N_of_ascii c in
  ((48 <=? n) && (n <=? 57) || (65 <=? n) && (n <=? 90)
   || (97 <=? n) && (n <=? 122)
   || (n =? 42) || (n =? 45) || (n =? 46) || (n =? 95))%N.

Definition form_encode_byte (c : ascii) : string :=
  let n := N_of_ascii c in
  if (n =? 32)%N then "+"
  else if form_safe c then String c ""
  else String "%" (String (hex_digit (n / 16)) (String (hex_digit (n mod 16)) "")).

(** UTF-8 of a string of code units below 256. *)
Fixpoint utf8_encode (s : string) : string :=
  match s with
  | EmptyString => EmptyString
  | String c s' =>
      let n := N_of_ascii c in
      if (n <? 128)%N then String c (utf8_encode s')
      else String (ascii_of_N (192 + n / 64))
             (String (ascii_of_N (128 + n mod 64)) (utf8_encode s'))
  end.

Fixpoint form_encode_bytes (s : string) : string :=
  match s with
  | EmptyString => EmptyString
  | String c s' => (form_encode_byte c ++ form_encode_bytes s')%string
  end.

Definition form_encode (s : string) : string := form_encode_bytes (utf8_encode s).

(** [(new URLSearchParams(init)).toString()] *)
Definition url_search_params (init : list (string * string)) : string :=
  String.concat "&"
    (map (fun p => (form_encode (fst p) ++ "=" ++ form_encode (snd p))%string)
         init).

(* ================================================================== *)
(** * The page *)
(* ================================================================== *)

(** A click listener installed by [generatesavedbtn]:
    [() => addToSavedWords(word)]. *)
Inductive listener : Type :=
| SaveWord (word : value).

(** Content of an element: markup assigned through [innerHTML], or an
    element made by [document.createElement] and appended. *)
Inductive node : Type :=
| Markup (html : string)
| Element (tag : string) (classes : list string) (click : list listener)
          (children : list node).

(** The state the script reads and writes: [wordInput.value], the
    children of [#word_output], [savedWords.innerHTML] as the string last
    assigned, [savedWordsArray] and what [console.error] received. *)
Record page : Type := {
  wordInput_value : string;
  wordOutput : list node;
  savedWords_innerHTML : string;
  savedWordsArray : list value;
  console : list js_error
}.

Definition set_wordOutput_innerHTML (html : string) (pg : page) : page :=
  {| wordInput_value := wordInput_value pg;
     wordOutput := [Markup html];
     savedWords_innerHTML := savedWords_innerHTML pg;
     savedWordsArray := savedWordsArray pg;
     console := console pg |}.

Definition wordOutput_appendChild (child : node) (pg : page) : page :=
  {| wordInput_value := wordInput_value pg;
     wordOutput := wordOutput pg ++ [child];
     savedWords_innerHTML := savedWords_innerHTML pg;
     savedWordsArray := savedWordsArray pg;
     console := console pg |}.

Definition console_error (err : js_error) (pg : page) : page :=
  {| wordInput_value := wordInput_value pg;
     wordOutput := wordOutput pg;
     savedWords_innerHTML := savedWords_innerHTML pg;
     savedWordsArray := savedWordsArray pg;
     console := console pg ++ [err] |}.

(** The page after the script has run once (line 114); the input text
    and the markup of [#word_output] come from the document. *)
Definition initial_page (input : string) (output : list node) : page :=
  {| wordInput_value := input;
     wordOutput := output;
     savedWords_innerHTML := "(none)";
     savedWordsArray := [];
     console := [] |}.

(** Lines 85-87 and 98-100.  The parameter is not read: the word comes
    from the input field. *)
Definition getDatamuseRhymeUrl (rel_rhy : string) (pg : page) : string :=
  ("https://api.datamuse.com/words?"
     ++ url_search_params [("rel_rhy", wordInput_value pg)])%string.

Definition getDatamuseSimilarToUrl (ml : string) (pg : page) : string :=
  ("https://api.datamuse.com/words?"
     ++ url_search_params [("ml", wordInput_value pg)])%string.

(** [Array.prototype.join]: [undefined] and [null] give the empty
    string. *)
Definition join_element (v : value) : string :=
  match v with
  | VUndefined | VNull => ""
  | _ => to_string v
  end.

Definition array_join (sep : string) (arr : list value) : string :=
  String.concat sep (map join_element arr).

(** Lines 108-112. *)
Definition addToSavedWords (word : value) (pg : page) : page :=
  let arr := savedWordsArray pg ++ [word] in
  {| wordInput_value := wordInput_value pg;
     wordOutput := wordOutput pg;
     savedWords_innerHTML := array_join ", " arr;
     savedWordsArray := arr;
     console := console pg |}.

(** Lines 116-122. *)
Definition generatesavedbtn (word : value) : node :=
  Element "button" ["btn"; "btn-outline-success"] [SaveWord word]
          [Markup "(Save)"].

(** A click runs the listeners of the element. *)
Definition run_listener (l : listener) (pg : page) : page :=
  match l with SaveWord word => addToSavedWords word pg end.

Definition click (n : node) (pg : page) : page :=
  match n with
  | Markup _ => pg
  | Element _ _ ls _ => fold_left (fun p l => run_listener l p) ls pg
  end.

(** The words of the save controls inside a node, in document order. *)
Fixpoint save_controls (n : node) : list value :=
  match n with
  | Markup _ => []
  | Element _ _ ls children =>
      map (fun l => match l with SaveWord w => w end) ls
        ++ flat_map save_controls children
  end.

(** How a callback ends: normally, or by throwing; both carry the page
    as the callback left it. *)
Inductive completion : Type :=
| Normal (pg : page)
| Throw (e : js_error) (pg : page).

(** [<li>] of one word, lines 141-146 and 162-167. *)
Definition word_entry (word : value) : node :=
  Element "li" [] [] [Markup (to_string word ++ " ")%string; generatesavedbtn word].

(** Lines 140-147 when [data[syllable]] is an own group: one entry per
    array position. *)
Definition group_entries (g : list item) : list node :=
  map (fun it => word_entry (get_prop "word" it)) g.

(** Lines 140-147 when [syllable] is an index inherited from a prototype
    array: [data[syllable]] is an item, [returnval] runs over its property
    names, and reading [.word] off a property value throws on [null] and
    [undefined] and gives [undefined] otherwise. *)
Fixpoint inherited_entries (it : item) (names : list string)
  : js_error + list node :=
  match names with
  | [] => inr []
  | returnval :: rest =>
      match get_prop returnval it with
      | VUndefined | VNull =>
          inl (TypeError "Cannot read properties of null or undefined")
      | _ =>
          match inherited_entries it rest with
          | inr es => inr (word_entry VUndefined :: es)
          | inl e => inl e
          end
      end
  end.

(** The keys visited by [for (syllable in data)]: the own keys, then the
    indices of a prototype array that no own key shadows. *)
Definition index_name (i : nat) : string := to_string (VNumber (Z.of_nat i)).

Definition for_in_keys (data : grouped) : list (string * (list item + item)) :=
  map (fun s => (s, inl (group_at data s))) (object_keys data)
    ++ match proto data with
       | None => []
       | Some arr =>
           flat_map (fun p =>
                       if assoc_has String.eqb (index_name (fst p)) (own data)
                       then []
                       else [(index_name (fst p), inr (snd p))])
                    (combine (seq 0 (List.length arr)) arr)
       end.

(** Lines 133-149: heading and list of each key, appended to the
    [<div>]. *)
Fixpoint render_groups (keys : list (string * (list item + item)))
  : js_error + list node :=
  match keys with
  | [] => inr []
  | (syllable, target) :: rest =>
      let syllable_tag := Element "h3" [] [] [Markup ("Syllables: " ++ syllable)%string] in
      let entries :=
        match target with
        | inl g => inr (group_entries g)
        | inr it => inherited_entries it (own_keys it)
        end in
      match entries with
      | inl e => inl e
      | inr es =>
          match render_groups rest with
          | inl e => inl e
          | inr ns => inr (syllable_tag :: Element "ul" [] [] es :: ns)
          end
      end
  end.

(** Lines 125-153. *)
Definition showRhymes (data : list item) (pg : page) : completion :=
  match data with
  | [] => Normal (set_wordOutput_innerHTML "(no results)" pg)
  | _ =>
      let data := groupBy data (PropName "numSyllables") in
      match render_groups (for_in_keys data) with
      | inl e => Throw e pg
      | inr ns =>
          let outputs := Element "div" [] [] ns in
          Normal (wordOutput_appendChild outputs
                    (set_wordOutput_innerHTML
                       ("<h2>Words that rhyme with " ++ wordInput_value pg
                          ++ "<h2>")%string
                       pg))
      end
  end.

(** Lines 155-172. *)
Definition showSynonyms (data : list item) (pg : page) : completion :=
  match data with
  | [] => Normal (set_wordOutput_innerHTML "(no results)" pg)
  | _ =>
      let outputs := Element "ul" [] [] (group_entries data) in
      Normal (wordOutput_appendChild outputs
                (set_wordOutput_innerHTML
                   ("<h2>Words with a similar meaning to "
                      ++ wordInput_value pg ++ "<h2>")%string
                   pg))
  end.

(** The save controls shown in [#word_output]. *)
Definition displayed_save_controls (pg : page) : list value :=
  flat_map save_controls (wordOutput pg).

(* ================================================================== *)
(** * Requests and event listeners *)
(* ================================================================== *)

Definition callback : Type := list item -> page -> completion.

(** A request started by [fetch] whose promise has not settled yet. *)
Record request : Type := { req_url : string; req_callback : callback }.

Record world : Type := { the_page : page; in_flight : list request }.

(** Lines 65-74, the synchronous part: [fetch(url)] starts the request
    and the two [then] register what runs when it settles. *)
Definition datamuseRequest (url : string) (cb : callback) (w : world) : world :=
  {| the_page := the_page w;
     in_flight := in_flight w ++ [{| req_url := url; req_callback := cb |}] |}.

(** Lines 66-73, when the promise of [fetch] settles with [outcome]:
    the page afterwards and the state of the last promise of the chain.
    A rejection of [fetch] or of [response.json()] reaches the second
    argument of the last [then]; an exception of the callback rejects
    the last promise. *)
Definition settle_request (outcome : settled response) (cb : callback)
    (pg : page) : page * settled unit :=
  match then_ outcome response_json with
  | Fulfilled data =>
      match cb data pg with
      | Normal pg' => (pg', Fulfilled tt)
      | Throw e pg' => (pg', Rejected e)
      end
  | Rejected err => (console_error err pg, Fulfilled tt)
  end.

Definition on_page (f : page -> page) (w : world) : world :=
  {| the_page := f (the_page w); in_flight := in_flight w |}.

(** Lines 175-178. *)
Definition showRhymesButton_click (w : world) : world :=
  let w := on_page (set_wordOutput_innerHTML "<h2>...loading<h2>") w in
  datamuseRequest
    (getDatamuseRhymeUrl (wordInput_value (the_page w)) (the_page w))
    showRhymes w.

(** Lines 180-185; [key] is [e.key]. *)
Definition wordInput_keypress (key : string) (w : world) : world :=
  if key =? "Enter" then
    let w := on_page (set_wordOutput_innerHTML "<h2>...loading<h2>") w in
    datamuseRequest
      (getDatamuseRhymeUrl (wordInput_value (the_page w)) (the_page w))
      showRhymes w
  else w.

(** Lines 187-190. *)
Definition showSynonymsButton_click (w : world) : world :=
  let w := on_page (set_wordOutput_innerHTML "<h2>...loading<h2>") w in
  datamuseRequest
    (getDatamuseSimilarToUrl (wordInput_value (the_page w)) (the_page w))
    showSynonyms w.

(* ================================================================== *)
(** * Notions used to state the properties *)
(* ================================================================== *)

(** Flattening an output, in the words of the specification: its groups
    concatenated in sorted key order, [Object.keys(result).sort()] being
    the sorted keys.  The source has no such function. *)
Definition sorted_keys (ks : list string) : list string :=
  map to_string (js_sort (map VString ks)).

Definition flatten (result : grouped) : list item :=
  flat_map (group_at result) (sorted_keys (object_keys result)).

(** [key_is f k o]: the selector [f] gives the group name [k] on [o]. *)
Definition key_is (f : item -> value) (k : value) (o : item) : bool :=
  same_value_zero (f o) k.

(** The last value of [ks] whose property key is [s]. *)
Definition last_with (s : string) (ks : list value) : option value :=
  find (fun k => to_property_key k =? s) (rev ks).

(** The order in which the second loop of [groupBy] writes the groups. *)
Definition write_order (objects : list item) (f : item -> value) : list value :=
  js_sort (map_keys (group_map objects f)).

(** The group name whose group ends up under the own key [s]. *)
Definition winner (objects : list item) (f : item -> value) (s : string)
  : option value :=
  if s =? "__proto__" then None else last_with s (write_order objects f).

(** The own keys, in creation order, after the second loop has written
    the group names [ks] of the [Map] [m]. *)
Definition created_keys (m : jsmap) (ks : list value) : list string :=
  map fst (own (fold_left (result_step m) ks empty_object)).

(** The group names whose groups are found under the keys [ss]. *)
Definition winners_of (objects : list item) (property : selector)
    (ss : list string) : list value :=
  flat_map (fun s => match winner objects (as_function property) s with
                     | Some k => [k]
                     | None => []
                     end) ss.

(** [k1] is written before [k2]. *)
Definition written_before (k1 k2 : value) (ks : list value) : Prop :=
  exists l1 l2 l3, ks = l1 ++ k1 :: l2 ++ k2 :: l3.

(** Group names that differ have different property keys, and no
    property key is ["__proto__"]. *)
Definition distinct_keys (objects : list item) (f : item -> value) : Prop :=
  forall a b, In a objects -> In b objects ->
    to_property_key (f a) = to_property_key (f b) -> f a = f b.

Definition no_proto_key (objects : list item) (f : item -> value) : Prop :=
  forall a, In a objects -> to_property_key (f a) <> "__proto__".

(** Every input item is found in the output group keyed by its group
    name. *)
Definition every_item_in_its_group (objects : list item) (property : selector)
  : Prop :=
  forall o, In o objects ->
    exists g, own_get (to_property_key (as_function property o))
                      (groupBy objects property) = Some g
              /\ In o g.

(** Sample items: [{w: w, n: n}] with a Number or a string under [n],
    and [{w: w}]. *)
Definition item_n (w : string) (n : Z) : item :=
  [("w", VString w); ("n", VNumber n)].

Definition item_s (w : string) (n : string) : item :=
  [("w", VString w); ("n", VString n)].

Definition item_w (w : string) : item := [("w", VString w)].

(** A word result of the service: [{word: w, numSyllables: n}]. *)
Definition word_result (w : string) (n : Z) : item :=
  [("word", VString w); ("numSyllables", VNumber n)].

(** Ascending order of strings by code units. *)
Fixpoint ascending (l : list string) : bool :=
  match l with
  | s :: (t :: _) as l' =>
      match String.compare s t with Gt => false | _ => ascending l' end
  | _ => true
  end.

(** Strictly ascending order of strings by code units, and of array
    indices by their numbers. *)
Definition string_lt (s t : string) : Prop := String.compare s t = Lt.

Definition index_lt (s t : string) : Prop :=
  match array_index s, array_index t with
  | Some a, Some b => (a < b)%Z
  | _, _ => False
  end.

(** [x] does not sort after [y] under the default comparison. *)
Definition sort_le (x y : value) : Prop := sort_compare x y <> Gt.

(** The key ["undefined"] when it is created by the group name
    [undefined], that is when no group name is the string
    ["undefined"]. *)
Definition undefined_tail (objects : list item) (f : item -> value)
  : list string :=
  if existsb (key_is f VUndefined) objects
     && negb (existsb (key_is f (VString "undefined")) objects)
  then ["undefined"] else [].

(** Every character of [s] satisfies [p]. *)
Fixpoint string_forall (p : ascii -> bool) (s : string) : bool :=
  match s with
  | EmptyString => true
  | String c s' => p c && string_forall p s'
  end.

(** The characters a serialized query can hold: letters, digits,
    [* - . _], and [+] and [%]. *)
Definition query_char (c : ascii) : bool :=
  form_safe c || (c =? "+")%char || (c =? "%")%char.

(** Reading a serialized query back, to show that serializing loses
    nothing.  The source has no such function. *)
Definition hex_value (c : ascii) : N :=
  let n := N_of_ascii c in
  if (n <? 58)%N then (n - 48)%N else (n - 55)%N.

Fixpoint form_decode_bytes (s : string) : string :=
  match s with
  | EmptyString => EmptyString
  | String c s' =>
      if (c =? "+")%char then String " " (form_decode_bytes s')
      else if (c =? "%")%char then
        match s' with
        | String h (String l s'') =>
            String (ascii_of_N (16 * hex_value h + hex_value l))
                   (form_decode_bytes s'')
        | _ => String c s'
        end
      else String c (form_decode_bytes s')
  end.

Fixpoint utf8_decode (s : string) : string :=
  match s with
  | EmptyString => EmptyString
  | String c s' =>
      let n := N_of_ascii c in
      if (n <? 128)%N then String c (utf8_decode s')
      else
        match s' with
        | String d s'' =>
            String (ascii_of_N ((n - 192) * 64 + (N_of_ascii d - 128)))
                   (utf8_decode s'')
        | EmptyString => String c EmptyString
        end
  end.

(** The elements inside a node that have a click listener, in document
    order. *)
Fixpoint save_buttons (n : node) : list node :=
  match n with
  | Markup _ => []
  | Element _ _ ls children =>
      match ls with [] => [] | _ :: _ => [n] end
        ++ flat_map save_buttons children
  end.

(** The heading and the list that [showRhymes] makes for the own key
    [s] of the grouped data. *)
Definition rhyme_section (data : grouped) (s : string) : list node :=
  [Element "h3" [] [] [Markup ("Syllables: " ++ s)%string];
   Element "ul" [] [] (group_entries (group_at data s))].

(** A syllable count as the service sends it: a Number, or missing. *)
Definition number_or_missing (v : value) : bool :=
  match v with
  | VNumber _ | VUndefined => true
  | _ => false
  end.

(** The page a callback leaves behind. *)
Definition completion_page (c : completion) : page :=
  match c with Normal p | Throw _ p => p end.

(** Clicking the elements [bs] one after the other. *)
Definition click_all (bs : list node) (pg : page) : page :=
  fold_left (fun p b => click b p) bs pg.

(** The two callbacks of the page. *)
Definition is_renderer (cb : callback) : Prop :=
  cb = showRhymes \/ cb = showSynonyms.

(** Saving the words [ws] one after the other. *)
Definition save_all (ws : list string) (pg : page) : page :=
  fold_left (fun p w => addToSavedWords (VString w) p) ws pg.

(* ================================================================== *)
(** * Values and association lists *)
(* ================================================================== *)

Lemma same_value_zero_spec x y : reflect (x = y) (same_value_zero x y).
Proof.
  destruct x as [| |a|a|a], y as [| |b|b|b]; simpl;
    try (constructor; congruence).
  - destruct (Bool.eqb_spec a b); constructor; congruence.
  - destruct (Z.eqb_spec a b); constructor; congruence.
  - destruct (String.eqb_spec a b); constructor; congruence.
Qed.

Lemma same_value_zero_refl x : same_value_zero x x = true.
Proof. destruct (same_value_zero_spec x x); congruence. Qed.

Lemma same_value_zero_eq x y : same_value_zero x y = true <-> x = y.
Proof. destruct (same_value_zero_spec x y); split; congruence. Qed.

Lemma same_value_zero_neq x y : same_value_zero x y = false <-> x <> y.
Proof. destruct (same_value_zero_spec x y); split; congruence. Qed.

Lemma filter_existsb_false {A : Type} (p : A -> bool) (l : list A) :
  existsb p l = false -> filter p l = [].
Proof.
  induction l as [|x l IH]; simpl; [reflexivity|].
  destruct (p x); simpl; [discriminate | exact IH].
Qed.

Section AssocFacts.
Context {K V : Type} (eqb : K -> K -> bool).
Hypothesis eqb_spec : forall x y, reflect (x = y) (eqb x y).

Lemma assoc_get_set_same k v (l : list (K * V)) :
  assoc_get eqb k (assoc_set eqb k v l) = Some v.
Proof.
  induction l as [|[k' v'] l IH]; simpl.
  - destruct (eqb_spec k k); congruence.
  - destruct (eqb_spec k k') as [->|Hne]; simpl.
    + destruct (eqb_spec k' k'); congruence.
    + destruct (eqb_spec k k'); congruence.
Qed.

Lemma assoc_get_set_other k k' v (l : list (K * V)) :
  k <> k' -> assoc_get eqb k' (assoc_set eqb k v l) = assoc_get eqb k' l.
Proof.
  intros Hne. induction l as [|[k0 v0] l IH]; simpl.
  - destruct (eqb_spec k' k); congruence.
  - destruct (eqb_spec k k0) as [->|Hk]; simpl.
    + destruct (eqb_spec k' k0); congruence.
    + destruct (eqb_spec k' k0); congruence.
Qed.

Lemma assoc_get_none k (l : list (K * V)) :
  assoc_get eqb k l = None <-> ~ In k (map fst l).
Proof.
  induction l as [|[k' v'] l IH]; simpl.
  - tauto.
  - destruct (eqb_spec k k') as [->|Hne].
    + split; [discriminate | intros H; exfalso; apply H; now left].
    + rewrite IH. split; intros H; [intros [E|E]; congruence | tauto].
Qed.

Lemma assoc_get_some_in k v (l : list (K * V)) :
  assoc_get eqb k l = Some v -> In k (map fst l).
Proof.
  intros H. destruct (in_dec (fun a b => reflect_dec _ _ (eqb_spec a b))
                             k (map fst l)) as [Hin|Hnot]; [assumption|].
  apply assoc_get_none in Hnot. congruence.
Qed.

Lemma assoc_in_get k (l : list (K * V)) :
  In k (map fst l) -> exists v, assoc_get eqb k l = Some v.
Proof.
  intros Hin. destruct (assoc_get eqb k l) as [v|] eqn:E; [eauto|].
  apply assoc_get_none in E. contradiction.
Qed.

Lemma assoc_set_keys k v (l : list (K * V)) :
  map fst (assoc_set eqb k v l)
  = if assoc_has eqb k l then map fst l else map fst l ++ [k].
Proof.
  unfold assoc_has. induction l as [|[k' v'] l IH]; simpl; [reflexivity|].
  destruct (eqb_spec k k') as [->|Hne]; simpl; [reflexivity|].
  rewrite IH. destruct (assoc_get eqb k l); reflexivity.
Qed.

Lemma assoc_set_nodup k v (l : list (K * V)) :
  NoDup (map fst l) -> NoDup (map fst (assoc_set eqb k v l)).
Proof.
  intros Hnd. rewrite assoc_set_keys. unfold assoc_has.
  destruct (assoc_get eqb k l) eqn:E; [assumption|].
  apply assoc_get_none in E.
  apply NoDup_app; [assumption | constructor; [simpl; tauto | constructor] |].
  intros x Hx [<-|[]]. contradiction.
Qed.
End AssocFacts.

(* ================================================================== *)
(** * The first loop: the [Map] of groups *)
(* ================================================================== *)

Section GroupMap.
Variable f : item -> value.

Lemma map_get_group_step m o k :
  map_get k (group_step f m o)
  = if same_value_zero (f o) k
    then Some (match map_get k m with Some a => a | None => [] end ++ [o])
    else map_get k m.
Proof.
  unfold group_step, map_has, map_get, map_set, assoc_has.
  destruct (same_value_zero_spec (f o) k) as [<-|Hne].
  - destruct (assoc_get same_value_zero (f o) m) as [a|] eqn:E.
    + rewrite E. apply (assoc_get_set_same _ same_value_zero_spec).
    + rewrite (assoc_get_set_same _ same_value_zero_spec).
      apply (assoc_get_set_same _ same_value_zero_spec).
  - destruct (assoc_get same_value_zero (f o) m) as [a|] eqn:E.
    + rewrite E. now apply (assoc_get_set_other _ same_value_zero_spec).
    + rewrite (assoc_get_set_same _ same_value_zero_spec).
      rewrite (assoc_get_set_other _ same_value_zero_spec) by assumption.
      now apply (assoc_get_set_other _ same_value_zero_spec).
Qed.

Lemma group_step_nodup m o :
  NoDup (map_keys m) -> NoDup (map_keys (group_step f m o)).
Proof.
  intros Hnd. unfold group_step, map_has, map_get, map_set, map_keys.
  set (m1 := if assoc_has same_value_zero (f o) m then m
             else assoc_set same_value_zero (f o) [] m).
  assert (H1 : NoDup (map fst m1)).
  { subst m1. destruct (assoc_has same_value_zero (f o) m); [assumption|].
    now apply (assoc_set_nodup _ same_value_zero_spec). }
  destruct (assoc_get same_value_zero (f o) m1); [|assumption].
  now apply (assoc_set_nodup _ same_value_zero_spec).
Qed.

Lemma group_map_snoc objs o :
  group_map (objs ++ [o]) f = group_step f (group_map objs f) o.
Proof. unfold group_map. now rewrite fold_left_app. Qed.

(** Every group of the [Map] holds the items of its name, in input
    order, and names that do not occur have no group. *)
Lemma map_get_group_map objs k :
  map_get k (group_map objs f)
  = if existsb (key_is f k) objs
    then Some (filter (key_is f k) objs) else None.
Proof.
  induction objs as [|o objs IH] using rev_ind; [reflexivity|].
  rewrite group_map_snoc, map_get_group_step, IH, existsb_app, filter_app.
  cbn [existsb filter]. fold (key_is f k).
  change (same_value_zero (f o) k) with (key_is f k o).
  destruct (key_is f k o), (existsb (key_is f k) objs) eqn:E; simpl;
    rewrite ?app_nil_r; try reflexivity.
  now rewrite (filter_existsb_false _ _ E).
Qed.

Lemma group_map_nodup objs : NoDup (map_keys (group_map objs f)).
Proof.
  induction objs as [|o objs IH] using rev_ind; [constructor|].
  rewrite group_map_snoc. now apply group_step_nodup.
Qed.

Lemma existsb_key_is objs k :
  existsb (key_is f k) objs = true <-> exists o, In o objs /\ f o = k.
Proof.
  rewrite existsb_exists. unfold key_is.
  split; intros [o [Hin Ho]]; exists o; split; try assumption;
    now apply same_value_zero_eq.
Qed.

Lemma in_map_keys objs k :
  In k (map_keys (group_map objs f)) <-> exists o, In o objs /\ f o = k.
Proof.
  rewrite <- existsb_key_is. unfold map_keys. split; intros H.
  - apply (assoc_in_get _ same_value_zero_spec) in H. destruct H as [g Hg].
    fold (map_get k (group_map objs f)) in Hg.
    rewrite map_get_group_map in Hg.
    now destruct (existsb (key_is f k) objs).
  - apply (assoc_get_some_in _ same_value_zero_spec) with
      (v := filter (key_is f k) objs).
    fold (map_get k (group_map objs f)).
    now rewrite map_get_group_map, H.
Qed.

Lemma map_get_of_key objs k :
  In k (map_keys (group_map objs f)) ->
  map_get k (group_map objs f) = Some (filter (key_is f k) objs).
Proof.
  intros H. apply in_map_keys, existsb_key_is in H.
  now rewrite map_get_group_map, H.
Qed.

Lemma filter_key_is_in objs k o :
  In o (filter (key_is f k) objs) <-> In o objs /\ f o = k.
Proof.
  rewrite filter_In. unfold key_is. now rewrite same_value_zero_eq.
Qed.
End GroupMap.

(* ================================================================== *)
(** * The default sort *)
(* ================================================================== *)

Lemma sort_insert_perm x l : Permutation (sort_insert x l) (x :: l).
Proof.
  induction l as [|y l IH]; cbn [sort_insert]; [reflexivity|].
  destruct (sort_compare x y); try reflexivity.
  rewrite IH. apply perm_swap.
Qed.

Lemma js_sort_perm l : Permutation (js_sort l) l.
Proof.
  induction l as [|x l IH]; simpl; [reflexivity|].
  rewrite sort_insert_perm. now constructor.
Qed.

Lemma js_sort_in l k : In k (js_sort l) <-> In k l.
Proof.
  split; apply Permutation_in; [|symmetry]; apply js_sort_perm.
Qed.

Lemma js_sort_nodup l : NoDup l -> NoDup (js_sort l).
Proof. apply Permutation_NoDup. symmetry. apply js_sort_perm. Qed.

Lemma sort_compare_undefined_l y : y <> VUndefined -> sort_compare VUndefined y = Gt.
Proof. destruct y; simpl; congruence. Qed.

(** [undefined] goes behind every other value. *)
Lemma sort_insert_undefined l :
  ~ In VUndefined l -> sort_insert VUndefined l = l ++ [VUndefined].
Proof.
  induction l as [|y l IH]; intros Hnot; cbn [sort_insert app];
    [reflexivity|].
  rewrite sort_compare_undefined_l by (intros ->; apply Hnot; now left).
  rewrite IH; [reflexivity|]. intros H. apply Hnot. now right.
Qed.

Lemma sort_insert_before_undefined x l :
  exists l', sort_insert x (l ++ [VUndefined]) = l' ++ [VUndefined].
Proof.
  induction l as [|y l [l' IH]]; cbn [sort_insert app].
  - destruct x; simpl;
      first [ now exists [VUndefined] | eexists [_]; reflexivity ].
  - destruct (sort_compare x y).
    + now exists (x :: y :: l).
    + now exists (x :: y :: l).
    + rewrite IH. now exists (y :: l').
Qed.

Lemma js_sort_undefined_last l :
  NoDup l -> In VUndefined l -> exists l', js_sort l = l' ++ [VUndefined].
Proof.
  induction l as [|x l IH]; intros Hnd Hin; [contradiction|].
  inversion Hnd as [|? ? Hx Hnd']; subst. simpl.
  destruct Hin as [->|Hin].
  - exists (js_sort l). apply sort_insert_undefined.
    now rewrite js_sort_in.
  - destruct (IH Hnd' Hin) as [l' ->]. apply sort_insert_before_undefined.
Qed.

(* ================================================================== *)
(** * The second loop: the result object *)
(* ================================================================== *)

Lemma own_get_obj_set s key g r :
  own_get s (obj_set key g r)
  = if key =? "__proto__" then own_get s r
    else if s =? key then Some g else own_get s r.
Proof.
  unfold obj_set, own_get.
  destruct (key =? "__proto__"); simpl; [reflexivity|].
  destruct (String.eqb_spec s key) as [->|Hne].
  - apply (assoc_get_set_same _ String.eqb_spec).
  - apply (assoc_get_set_other _ String.eqb_spec). congruence.
Qed.

Lemma obj_set_nodup key g r :
  NoDup (map fst (own r)) -> NoDup (map fst (own (obj_set key g r))).
Proof.
  intros H. unfold obj_set. destruct (key =? "__proto__"); simpl;
    [assumption | now apply (assoc_set_nodup _ String.eqb_spec)].
Qed.

Lemma last_with_snoc s ks k :
  last_with s (ks ++ [k])
  = if to_property_key k =? s then Some k else last_with s ks.
Proof. unfold last_with. now rewrite rev_app_distr. Qed.

Lemma last_with_some s ks k :
  last_with s ks = Some k -> In k ks /\ to_property_key k = s.
Proof.
  unfold last_with. intros H. apply find_some in H. destruct H as [Hin E].
  split; [now apply in_rev | now apply String.eqb_eq].
Qed.

Lemma last_with_none s ks :
  last_with s ks = None <-> forall k, In k ks -> to_property_key k <> s.
Proof.
  unfold last_with. split.
  - intros H k Hin. apply in_rev in Hin.
    apply (find_none _ _ H) in Hin. now apply String.eqb_neq.
  - intros H. destruct (find _ (rev ks)) as [k|] eqn:E; [|reflexivity].
    apply find_some in E. destruct E as [Hin E].
    apply in_rev in Hin. apply String.eqb_eq in E. now apply H in Hin.
Qed.

(** When every value of [ks] with key [s] is [k], and [k] is there, the
    last one is [k]. *)
Lemma last_with_unique s ks k :
  In k ks -> to_property_key k = s ->
  (forall k', In k' ks -> to_property_key k' = s -> k' = k) ->
  last_with s ks = Some k.
Proof.
  intros Hin Hk Huniq. destruct (last_with s ks) as [k'|] eqn:E.
  - apply last_with_some in E. destruct E as [Hin' Hk'].
    f_equal. now apply Huniq.
  - rewrite last_with_none in E. now apply E in Hin.
Qed.

Section ResultLoop.
Variable m : jsmap.

Lemma fold_result_snoc ks k r :
  fold_left (result_step m) (ks ++ [k]) r
  = result_step m (fold_left (result_step m) ks r) k.
Proof. now rewrite fold_left_app. Qed.

(** The own property [s] after the loop is the group of the last key
    written under [s]. *)
Lemma own_get_fold ks r s :
  s <> "__proto__" ->
  (forall k, In k ks -> map_get k m <> None) ->
  own_get s (fold_left (result_step m) ks r)
  = match last_with s ks with
    | Some k => map_get k m
    | None => own_get s r
    end.
Proof.
  intros Hs. induction ks as [|k ks IH] using rev_ind; intros Hall;
    [reflexivity|].
  rewrite fold_result_snoc, last_with_snoc. unfold result_step at 1.
  assert (Hk : map_get k m <> None) by (apply Hall, in_or_app; right; now left).
  destruct (map_get k m) as [g|] eqn:Eg; [|congruence].
  rewrite own_get_obj_set.
  assert (IH' := IH (fun k' H => Hall k' (in_or_app _ _ _ (or_introl H)))).
  destruct (String.eqb_spec (to_property_key k) s) as [E|E].
  - subst s. apply String.eqb_neq in Hs. rewrite Hs, String.eqb_refl.
    congruence.
  - destruct (to_property_key k =? "__proto__"); [exact IH'|].
    destruct (String.eqb_spec s (to_property_key k)); [congruence|exact IH'].
Qed.

Lemma own_get_fold_proto ks r :
  own_get "__proto__" (fold_left (result_step m) ks r)
  = own_get "__proto__" r.
Proof.
  induction ks as [|k ks IH] using rev_ind; [reflexivity|].
  rewrite fold_result_snoc. unfold result_step at 1.
  destruct (map_get k m); [|exact IH].
  rewrite own_get_obj_set.
  destruct (String.eqb_spec (to_property_key k) "__proto__") as [E|E];
    [exact IH|].
  destruct (String.eqb_spec "__proto__" (to_property_key k));
    [congruence | exact IH].
Qed.

Lemma fold_result_nodup ks r :
  NoDup (map fst (own r)) ->
  NoDup (map fst (own (fold_left (result_step m) ks r))).
Proof.
  intros H. induction ks as [|k ks IH] using rev_ind; [assumption|].
  rewrite fold_result_snoc. unfold result_step at 1.
  destruct (map_get k m); [now apply obj_set_nodup | assumption].
Qed.
End ResultLoop.

(* ================================================================== *)
(** * Key order of ordinary objects *)
(* ================================================================== *)

Lemma index_insert_perm s l : Permutation (index_insert s l) (s :: l).
Proof.
  induction l as [|t l IH]; cbn [index_insert]; [reflexivity|].
  destruct (index_leb s t); [reflexivity|].
  rewrite IH. apply perm_swap.
Qed.

Lemma index_sort_perm l : Permutation (index_sort l) l.
Proof.
  induction l as [|s l IH]; cbn [index_sort]; [reflexivity|].
  rewrite index_insert_perm. now constructor.
Qed.

Lemma filter_partition_perm {A : Type} (p : A -> bool) (l : list A) :
  Permutation (filter p l ++ filter (fun x => negb (p x)) l) l.
Proof.
  induction l as [|x l IH]; simpl; [reflexivity|].
  destruct (p x); simpl.
  - now constructor.
  - symmetry. apply Permutation_cons_app. now symmetry.
Qed.

Lemma ordinary_keys_perm l : Permutation (ordinary_keys l) l.
Proof.
  unfold ordinary_keys. rewrite index_sort_perm. apply filter_partition_perm.
Qed.

Lemma sorted_keys_perm ks : Permutation (sorted_keys ks) ks.
Proof.
  unfold sorted_keys. rewrite js_sort_perm, map_map. simpl.
  now rewrite map_id.
Qed.

Lemma object_keys_perm r : Permutation (object_keys r) (map fst (own r)).
Proof. apply ordinary_keys_perm. Qed.

Lemma in_object_keys r s : In s (object_keys r) <-> own_get s r <> None.
Proof.
  unfold own_get. rewrite (assoc_get_none _ String.eqb_spec). split.
  - intros H Hn. apply Hn. eapply Permutation_in; [apply object_keys_perm|].
    exact H.
  - intros H.
    destruct (in_dec string_dec s (map fst (own r))) as [Hin|Hn]; [|tauto].
    eapply Permutation_in; [symmetry; apply object_keys_perm | exact Hin].
Qed.

(* ================================================================== *)
(** * groupBy: what each own property holds *)
(* ================================================================== *)

Section GroupBy.
Variable objects : list item.
Variable property : selector.
Let f := as_function property.

Lemma in_write_order k :
  In k (write_order objects f) <-> exists o, In o objects /\ f o = k.
Proof. unfold write_order. now rewrite js_sort_in, in_map_keys. Qed.

Lemma write_order_nodup : NoDup (write_order objects f).
Proof. apply js_sort_nodup, group_map_nodup. Qed.

Lemma winner_some s k :
  winner objects f s = Some k ->
  to_property_key k = s /\ s <> "__proto__"
  /\ exists o, In o objects /\ f o = k.
Proof.
  unfold winner. destruct (String.eqb_spec s "__proto__"); [discriminate|].
  intros H. apply last_with_some in H. destruct H as [Hin Hk].
  repeat split; try assumption. now apply in_write_order.
Qed.

Lemma winner_none s :
  winner objects f s = None -> s <> "__proto__" ->
  forall o, In o objects -> to_property_key (f o) <> s.
Proof.
  unfold winner. destruct (String.eqb_spec s "__proto__"); [congruence|].
  intros H _ o Ho. rewrite last_with_none in H. apply H.
  apply in_write_order. eauto.
Qed.

(** The own property [s] of the output holds the items whose group
    name is the last one written under [s], in input order. *)
Lemma own_get_groupBy s :
  own_get s (groupBy objects property)
  = option_map (fun k => filter (key_is f k) objects) (winner objects f s).
Proof.
  unfold groupBy, winner. fold f. fold (write_order objects f).
  destruct (String.eqb_spec s "__proto__") as [->|Hs].
  - now rewrite own_get_fold_proto.
  - rewrite own_get_fold; [|assumption|].
    + destruct (last_with s (write_order objects f)) as [k|] eqn:E;
        [|reflexivity].
      apply last_with_some in E. destruct E as [Hin _].
      unfold write_order in Hin. rewrite js_sort_in in Hin.
      simpl. now apply map_get_of_key.
    + intros k Hin. unfold write_order in Hin. rewrite js_sort_in in Hin.
      now rewrite (map_get_of_key f objects k Hin).
Qed.

Lemma groupBy_nodup : NoDup (object_keys (groupBy objects property)).
Proof.
  eapply Permutation_NoDup; [symmetry; apply object_keys_perm|].
  unfold groupBy. apply fold_result_nodup. constructor.
Qed.

Lemma sorted_object_keys_nodup :
  NoDup (sorted_keys (object_keys (groupBy objects property))).
Proof.
  eapply Permutation_NoDup; [symmetry; apply sorted_keys_perm|].
  apply groupBy_nodup.
Qed.

Lemma in_sorted_object_keys s :
  In s (sorted_keys (object_keys (groupBy objects property)))
  <-> winner objects f s <> None.
Proof.
  transitivity (In s (object_keys (groupBy objects property))).
  - split; apply Permutation_in; [|symmetry]; apply sorted_keys_perm.
  - rewrite in_object_keys, own_get_groupBy.
    destruct (winner objects f s); simpl; split; congruence.
Qed.

Lemma group_at_groupBy s :
  group_at (groupBy objects property) s
  = match winner objects f s with
    | Some k => filter (key_is f k) objects
    | None => []
    end.
Proof.
  unfold group_at. rewrite own_get_groupBy.
  now destruct (winner objects f s).
Qed.

(** The flattened output holds the items whose group name won its
    key. *)
Lemma in_flatten o :
  In o (flatten (groupBy objects property))
  <-> In o objects /\ winner objects f (to_property_key (f o)) = Some (f o).
Proof.
  unfold flatten. rewrite in_flat_map. split.
  - intros [s [Hs Ho]]. rewrite group_at_groupBy in Ho.
    destruct (winner objects f s) as [k|] eqn:E; [|contradiction].
    apply filter_key_is_in in Ho. destruct Ho as [Hin Hk].
    apply winner_some in E as E'. destruct E' as [Hks _].
    split; [assumption|]. now rewrite Hk, Hks, E.
  - intros [Hin Hw]. exists (to_property_key (f o)). split.
    + apply in_sorted_object_keys. congruence.
    + rewrite group_at_groupBy, Hw. now apply filter_key_is_in.
Qed.
End GroupBy.

(* ================================================================== *)
(** * List facts used below *)
(* ================================================================== *)

Lemma filter_flat_map {A B : Type} (p : B -> bool) (g : A -> list B) l :
  filter p (flat_map g l) = flat_map (fun x => filter p (g x)) l.
Proof.
  induction l as [|x l IH]; simpl; [reflexivity|].
  now rewrite filter_app, IH.
Qed.

Lemma filter_nil_iff {A : Type} (p : A -> bool) l :
  (forall x, In x l -> p x = false) -> filter p l = [].
Proof.
  intros H. induction l as [|x l IH]; simpl; [reflexivity|].
  rewrite (H x (or_introl eq_refl)). apply IH. intros y Hy. apply H. now right.
Qed.

Lemma filter_all {A : Type} (p : A -> bool) l :
  (forall x, In x l -> p x = true) -> filter p l = l.
Proof.
  intros H. induction l as [|x l IH]; simpl; [reflexivity|].
  rewrite (H x (or_introl eq_refl)). f_equal. apply IH.
  intros y Hy. apply H. now right.
Qed.

Lemma flat_map_nil {A B : Type} (g : A -> list B) l :
  (forall x, In x l -> g x = []) -> flat_map g l = [].
Proof.
  intros H. induction l as [|x l IH]; simpl; [reflexivity|].
  rewrite (H x (or_introl eq_refl)). apply IH. intros y Hy. apply H. now right.
Qed.

(** A concatenation in which one member only is not empty. *)
Lemma flat_map_single {A B : Type} (g : A -> list B) l a :
  NoDup l -> In a l -> (forall x, In x l -> x <> a -> g x = []) ->
  flat_map g l = g a.
Proof.
  induction l as [|x l IH]; intros Hnd Hin Hnil; [contradiction|].
  inversion Hnd as [|? ? Hx Hnd']; subst. simpl. destruct Hin as [->|Hin].
  - rewrite flat_map_nil; [apply app_nil_r|].
    intros y Hy. apply Hnil; [now right | intros ->; contradiction].
  - rewrite (Hnil x (or_introl eq_refl)) by (intros ->; contradiction).
    apply IH; try assumption. intros y Hy. apply Hnil. now right.
Qed.

(* ================================================================== *)
(** * Regrouping the flattened output *)
(* ================================================================== *)

Section Regroup.
Variable objects : list item.
Variable property : selector.
Let f := as_function property.
Let flat := flatten (groupBy objects property).

Lemma winner_flatten_some s w :
  winner objects f s = Some w -> winner flat f s = Some w.
Proof.
  intros W. destruct (winner_some _ _ _ _ W) as [Hw [Hs [o [Ho Hfo]]]].
  unfold winner. apply String.eqb_neq in Hs. rewrite Hs.
  apply last_with_unique; [|assumption|].
  - apply in_write_order. exists o. split; [|assumption].
    apply in_flatten. split; [assumption|]. fold f in Hfo |- *.
    congruence.
  - intros k' Hk' Hks. apply in_write_order in Hk'.
    destruct Hk' as [o' [Ho' Hfo']]. apply in_flatten in Ho'.
    destruct Ho' as [_ Hw']. fold f in Hw', Hfo'. congruence.
Qed.

Lemma winner_flatten_none s :
  winner objects f s = None -> winner flat f s = None.
Proof.
  intros W. unfold winner.
  destruct (String.eqb_spec s "__proto__") as [|Hs]; [reflexivity|].
  apply last_with_none. intros k Hk. apply in_write_order in Hk.
  destruct Hk as [o [Ho <-]]. apply in_flatten in Ho.
  now apply (winner_none objects property s W Hs).
Qed.

Lemma filter_flatten_winner s w :
  winner objects f s = Some w ->
  filter (key_is f w) flat = filter (key_is f w) objects.
Proof.
  intros W. destruct (winner_some _ _ _ _ W) as [Hw _].
  unfold flat, flatten. rewrite filter_flat_map.
  rewrite (flat_map_single _ _ s).
  - rewrite group_at_groupBy. fold f. rewrite W.
    apply filter_all. intros o Ho. now apply filter_In in Ho.
  - apply sorted_object_keys_nodup.
  - apply in_sorted_object_keys. fold f. congruence.
  - intros s' _ Hne. rewrite group_at_groupBy. fold f.
    destruct (winner objects f s') as [k'|] eqn:W'; [|reflexivity].
    destruct (winner_some _ _ _ _ W') as [Hk' _].
    apply filter_nil_iff. intros o Ho. apply filter_key_is_in in Ho.
    destruct Ho as [_ Ho]. unfold key_is. apply same_value_zero_neq.
    congruence.
Qed.
End Regroup.

(** C6.  Grouping is idempotent on structure: grouping the flattened
    output of [groupBy] (its groups concatenated in sorted key order)
    again by the same selector gives the same own properties: the same
    keys and under every key the same group with the same order of
    items. *)
Theorem groupBy_flatten_idempotent (objects : list item) (property : selector) :
  let result := groupBy objects property in
  let again := groupBy (flatten result) property in
  (forall s, own_get s again = own_get s result)
  /\ (forall s, In s (object_keys again) <-> In s (object_keys result)).
Proof.
  intros result again.
  assert (H : forall s, own_get s again = own_get s result).
  { intros s. unfold again, result. rewrite !own_get_groupBy.
    destruct (winner objects (as_function property) s) as [w|] eqn:W.
    - rewrite (winner_flatten_some _ _ _ _ W). simpl.
      now rewrite (filter_flatten_winner _ _ _ _ W).
    - now rewrite (winner_flatten_none _ _ _ W). }
  split; [exact H|].
  intros s. now rewrite !in_object_keys, H.
Qed.

(* ================================================================== *)
(** * Groups as a partition of the input *)
(* ================================================================== *)

Lemma flat_map_ext_in' {A B : Type} (g h : A -> list B) l :
  (forall x, In x l -> g x = h x) -> flat_map g l = flat_map h l.
Proof.
  intros H. induction l as [|x l IH]; simpl; [reflexivity|].
  rewrite (H x (or_introl eq_refl)). f_equal. apply IH.
  intros y Hy. apply H. now right.
Qed.

Lemma flat_map_of_map {A B C : Type} (g : B -> list C) (h : A -> B) l :
  flat_map g (map h l) = flat_map (fun x => g (h x)) l.
Proof. induction l as [|x l IH]; simpl; [reflexivity | now rewrite IH]. Qed.

Lemma nodup_map_on {A B : Type} (h : A -> B) l :
  (forall a b, In a l -> In b l -> h a = h b -> a = b) ->
  NoDup l -> NoDup (map h l).
Proof.
  intros Hinj Hnd. induction Hnd as [|x l Hx Hnd IH]; simpl; constructor.
  - rewrite in_map_iff. intros [y [Hy Hin]]. apply Hx.
    rewrite <- (Hinj y x); [assumption | now right | now left | assumption].
  - apply IH. intros a b Ha Hb. apply Hinj; now right.
Qed.

Section Partition.
Variable f : item -> value.

Lemma filter_other_key k o l :
  f o <> k -> filter (key_is f k) (o :: l) = filter (key_is f k) l.
Proof.
  intros H. simpl. unfold key_is at 1.
  apply same_value_zero_neq in H. now rewrite H.
Qed.

(** The groups of the names [ks], one after the other, hold every item
    once when [ks] has each group name once. *)
Lemma groups_partition ks l :
  NoDup ks -> (forall o, In o l -> In (f o) ks) ->
  Permutation (flat_map (fun k => filter (key_is f k) l) ks) l.
Proof.
  intros Hnd. induction l as [|o l IH]; intros Hall.
  - rewrite flat_map_nil; [constructor | reflexivity].
  - destruct (in_split _ _ (Hall o (or_introl eq_refl))) as [ks1 [ks2 E]].
    assert (IH' := IH (fun x H => Hall x (or_intror H))).
    rewrite E in Hnd, IH' |- *. apply NoDup_remove_2 in Hnd.
    rewrite flat_map_app in IH' |- *. cbn [flat_map] in IH' |- *.
    rewrite (flat_map_ext_in' _ (fun k => filter (key_is f k) l) ks1).
    2:{ intros k Hk. apply filter_other_key. intros <-. apply Hnd.
        apply in_or_app. now left. }
    rewrite (flat_map_ext_in' _ (fun k => filter (key_is f k) l) ks2).
    2:{ intros k Hk. apply filter_other_key. intros <-. apply Hnd.
        apply in_or_app. now right. }
    simpl. unfold key_is at 2. rewrite same_value_zero_refl. simpl.
    symmetry. apply Permutation_cons_app. now symmetry.
Qed.
End Partition.

Section DistinctKeys.
Variable objects : list item.
Variable property : selector.
Let f := as_function property.
Hypothesis Hdistinct : distinct_keys objects f.
Hypothesis Hproto : no_proto_key objects f.

Lemma winner_of_item o :
  In o objects -> winner objects f (to_property_key (f o)) = Some (f o).
Proof.
  intros Ho. unfold winner.
  destruct (String.eqb_spec (to_property_key (f o)) "__proto__") as [E|_];
    [now apply Hproto in E|].
  apply last_with_unique; [apply in_write_order; eauto | reflexivity |].
  intros k' Hk' E. apply in_write_order in Hk'.
  destruct Hk' as [o' [Ho' <-]]. now apply Hdistinct.
Qed.

Lemma sorted_keys_write_order :
  Permutation (sorted_keys (object_keys (groupBy objects property)))
              (map to_property_key (write_order objects f)).
Proof.
  apply NoDup_Permutation.
  - apply sorted_object_keys_nodup.
  - apply nodup_map_on; [|apply write_order_nodup].
    intros a b Ha Hb E. apply in_write_order in Ha, Hb.
    destruct Ha as [oa [Ha <-]], Hb as [ob [Hb <-]]. now apply Hdistinct.
  - intros s. rewrite in_sorted_object_keys, in_map_iff. fold f. split.
    + intros H. destruct (winner objects f s) as [k|] eqn:W; [|congruence].
      destruct (winner_some _ _ _ _ W) as [Hk [_ Hex]].
      exists k. split; [assumption | now apply in_write_order].
    + intros [k [Hk Hin]]. apply in_write_order in Hin.
      destruct Hin as [o [Ho <-]]. subst s. fold f.
      rewrite (winner_of_item o Ho). discriminate.
Qed.

Lemma flatten_perm : Permutation (flatten (groupBy objects property)) objects.
Proof.
  unfold flatten. rewrite sorted_keys_write_order, flat_map_of_map.
  rewrite (flat_map_ext_in' _ (fun k => filter (key_is f k) objects)).
  - apply groups_partition; [apply write_order_nodup|].
    intros o Ho. apply in_write_order. eauto.
  - intros k Hk. apply in_write_order in Hk. destruct Hk as [o [Ho <-]].
    rewrite group_at_groupBy. fold f. now rewrite (winner_of_item o Ho).
Qed.
End DistinctKeys.

(** C1 (amended).  When group names that differ have different string
    forms and none has the string form ["__proto__"], every input item
    appears in exactly one output group, the group keyed by the string
    form of its group name: that group is the sub-sequence of the input
    with that group name, in input order, every member of a group has
    the key of the group as its group name, and the groups concatenated
    in sorted key order hold the input items once each. *)
Theorem groupBy_partitions_input (objects : list item) (property : selector) :
  let f := as_function property in
  let result := groupBy objects property in
  distinct_keys objects f ->
  no_proto_key objects f ->
  (forall o, In o objects ->
     own_get (to_property_key (f o)) result
     = Some (filter (key_is f (f o)) objects))
  /\ (forall s g o, own_get s result = Some g -> In o g ->
        In o objects /\ to_property_key (f o) = s)
  /\ Permutation (flatten result) objects.
Proof.
  intros f result Hd Hp. subst f result.
  split; [|split].
  - intros o Ho. rewrite own_get_groupBy.
    now rewrite (winner_of_item objects property Hd Hp o Ho).
  - intros s g o Hg Ho. rewrite own_get_groupBy in Hg.
    destruct (winner objects (as_function property) s) as [k|] eqn:W;
      [|discriminate].
    injection Hg as <-. apply filter_key_is_in in Ho.
    destruct Ho as [Ho E]. split; [assumption|].
    destruct (winner_some _ _ _ _ W) as [Hk _]. congruence.
  - now apply flatten_perm.
Qed.

(** C1 as stated fails: grouping [[{w:'a',n:2},{w:'b',n:'2'}]] by [n]
    leaves the first item in no group, the group of the string ['2']
    overwrote the group of the number [2]. *)
Lemma groupBy_item_in_no_group :
  ~ every_item_in_its_group [item_n "a" 2; item_s "b" "2"] (PropName "n").
Proof.
  intros H. destruct (H (item_n "a" 2) (or_introl eq_refl)) as [g [Hg Hin]].
  vm_compute in Hg. injection Hg as <-.
  destruct Hin as [E|[]]. discriminate E.
Qed.

Lemma groupBy_partitions_input_witness :
  let objects := [item_n "a" 2; item_n "b" 1; item_n "c" 2] in
  distinct_keys objects (get_prop "n")
  /\ no_proto_key objects (get_prop "n")
  /\ own_get "2" (groupBy objects (PropName "n"))
     = Some [item_n "a" 2; item_n "c" 2]
  /\ Permutation (flatten (groupBy objects (PropName "n"))) objects.
Proof.
  intros objects.
  assert (Hd : distinct_keys objects (get_prop "n")).
  { intros a b Ha Hb. simpl in Ha, Hb.
    destruct Ha as [<-|[<-|[<-|[]]]], Hb as [<-|[<-|[<-|[]]]];
      vm_compute; intros E; first [reflexivity | discriminate E]. }
  assert (Hp : no_proto_key objects (get_prop "n")).
  { intros a Ha. simpl in Ha.
    destruct Ha as [<-|[<-|[<-|[]]]]; vm_compute; discriminate. }
  destruct (groupBy_partitions_input objects (PropName "n") Hd Hp)
    as [Hown [_ Hperm]].
  split; [exact Hd | split; [exact Hp | split; [|exact Hperm]]].
  exact (Hown (item_n "a" 2) (or_introl eq_refl)).
Defined.

(** The group name ["__proto__"] creates no own property: its group
    becomes the prototype of the output. *)
Example groupBy_proto_group :
  groupBy [item_s "a" "x"; item_s "b" "__proto__"] (PropName "n")
  = {| proto := Some [item_s "b" "__proto__"];
       own := [("x", [item_s "a" "x"])] |}.
Proof. reflexivity. Qed.

(* ================================================================== *)
(** * String forms of group names *)
(* ================================================================== *)

Lemma number_string_parse n :
  NilZero.int_of_string (to_string (VNumber n)) = Some (Z.to_int n).
Proof.
  simpl. apply NilZero.isi; destruct n; simpl; intros E;
    try discriminate E; injection E; apply Unsigned.to_uint_nonnil.
Qed.

Lemma number_string_inj n n' :
  to_string (VNumber n) = to_string (VNumber n') -> n = n'.
Proof.
  intros E. apply (f_equal NilZero.int_of_string) in E.
  rewrite !number_string_parse in E. injection E. apply DecimalZ.to_int_inj.
Qed.

Lemma number_string_not_word n s :
  NilZero.int_of_string s = None -> to_string (VNumber n) <> s.
Proof.
  intros Hs E. apply (f_equal NilZero.int_of_string) in E.
  rewrite number_string_parse in E. congruence.
Qed.

(** Two values with the same string form are equal, or one of them is
    that string. *)
Lemma same_string_form a b :
  to_string a = to_string b ->
  a = b \/ a = VString (to_string b) \/ b = VString (to_string a).
Proof.
  intros E.
  destruct a as [| |x|n|s], b as [| |y|n'|s'];
    try (left; reflexivity);
    try (right; left; simpl in *; congruence);
    try (right; right; simpl in *; congruence);
    try (left; f_equal; now apply number_string_inj);
    try (destruct x, y; first [left; reflexivity | discriminate E]);
    exfalso;
    try destruct x; try destruct y;
    try discriminate E;
    first [ now apply number_string_not_word in E
          | symmetry in E; now apply number_string_not_word in E ].
Qed.

(** No three different values share a string form. *)
Lemma no_three_share a b c :
  to_string a = to_string b -> to_string b = to_string c ->
  a <> b -> b <> c -> a <> c -> False.
Proof.
  intros Eab Ebc Hab Hbc Hac.
  destruct (same_string_form a b Eab) as [H|[H|H]]; [contradiction| |];
    destruct (same_string_form b c Ebc) as [H'|[H'|H']];
    try contradiction;
    destruct (same_string_form a c (eq_trans Eab Ebc)) as [H''|[H''|H'']];
    try contradiction; congruence.
Qed.

Lemma proto_key_is_string v :
  to_property_key v = "__proto__" -> v = VString "__proto__".
Proof.
  unfold to_property_key. intros E.
  destruct v as [| |x|n|s]; try discriminate E.
  - destruct x; discriminate E.
  - now apply number_string_not_word in E.
  - simpl in E. now subst.
Qed.

Lemma find_skip {A : Type} (p : A -> bool) l l' :
  (forall x, In x l -> p x = false) -> find p (l ++ l') = find p l'.
Proof.
  intros H. induction l as [|x l IH]; simpl; [reflexivity|].
  rewrite (H x (or_introl eq_refl)). apply IH. intros y Hy. apply H. now right.
Qed.

Section Collision.
Variable objects : list item.
Variable property : selector.
Let f := as_function property.
Variables k1 k2 : value.
Hypothesis Hbefore : written_before k1 k2 (write_order objects f).
Hypothesis Hsame : to_property_key k1 = to_property_key k2.

Lemma collision_distinct : k1 <> k2.
Proof.
  destruct Hbefore as [l1 [l2 [l3 E]]].
  pose proof (write_order_nodup objects property) as Hnd.
  fold f in Hnd. rewrite E in Hnd.
  apply NoDup_remove_2 in Hnd. intros ->. apply Hnd.
  apply in_or_app. right. apply in_or_app. right. now left.
Qed.

Lemma collision_in_order : In k1 (write_order objects f)
                           /\ In k2 (write_order objects f).
Proof.
  destruct Hbefore as [l1 [l2 [l3 E]]]. rewrite E. split.
  - apply in_or_app. right. now left.
  - apply in_or_app. right. right. apply in_or_app. right. now left.
Qed.

Lemma collision_winner : winner objects f (to_property_key k2) = Some k2.
Proof.
  pose proof collision_distinct as Hne.
  unfold winner.
  destruct (String.eqb_spec (to_property_key k2) "__proto__") as [E|_].
  - exfalso. apply Hne.
    rewrite (proto_key_is_string k2 E).
    apply proto_key_is_string. congruence.
  - destruct Hbefore as [l1 [l2 [l3 E]]].
    pose proof (write_order_nodup objects property) as Hnd.
    fold f in Hnd. rewrite E in Hnd |- *.
    assert (H1 : forall k, In k l3 -> k1 <> k).
    { intros k Hk ->. apply NoDup_remove_2 in Hnd. apply Hnd.
      apply in_or_app. right. apply in_or_app. right. now right. }
    rewrite app_comm_cons, app_assoc in Hnd |- *.
    assert (H2 : forall k, In k l3 -> k2 <> k).
    { intros k Hk ->. apply NoDup_remove_2 in Hnd. apply Hnd.
      apply in_or_app. now right. }
    unfold last_with. rewrite rev_app_distr. cbn [rev].
    rewrite <- app_assoc, find_skip.
    + cbn [app find]. now rewrite String.eqb_refl.
    + intros k Hk. apply in_rev in Hk. apply String.eqb_neq. intros Ek.
      apply (no_three_share k1 k2 k); auto.
Qed.

Lemma collision_loser_absent s g o :
  own_get s (groupBy objects property) = Some g -> In o g -> f o <> k1.
Proof.
  intros Hg Ho E. rewrite own_get_groupBy in Hg. fold f in Hg.
  destruct (winner objects f s) as [w|] eqn:W; [|discriminate].
  injection Hg as <-. apply filter_key_is_in in Ho. destruct Ho as [_ Ho].
  destruct (winner_some _ _ _ _ W) as [Hw _].
  assert (Hs : s = to_property_key k2) by congruence.
  rewrite Hs, collision_winner in W.
  apply collision_distinct. congruence.
Qed.
End Collision.

(** C10.  The keys of the output are the string forms of the selector's
    values.  When two different selector values have the same string
    form, the [Map] holds a group for each, the output holds under their
    common key the group of the one written later, and the items of the
    one written earlier are in no group of the output. *)
Theorem groupBy_string_form_collision
    (objects : list item) (property : selector) (k1 k2 : value) :
  let f := as_function property in
  let groupedObjects := group_map objects f in
  let result := groupBy objects property in
  written_before k1 k2 (write_order objects f) ->
  to_property_key k1 = to_property_key k2 ->
  k1 <> k2
  /\ map_get k1 groupedObjects = Some (filter (key_is f k1) objects)
  /\ map_get k2 groupedObjects = Some (filter (key_is f k2) objects)
  /\ own_get (to_property_key k2) result = Some (filter (key_is f k2) objects)
  /\ (forall s g o, own_get s result = Some g -> In o g -> f o <> k1)
  /\ (forall s, In s (object_keys result) ->
        exists o, In o objects /\ s = to_property_key (f o)).
Proof.
  intros f groupedObjects result Hbefore Hsame.
  subst f groupedObjects result.
  destruct (collision_in_order objects property k1 k2 Hbefore) as [Hi1 Hi2].
  unfold write_order in Hi1, Hi2. rewrite js_sort_in in Hi1, Hi2.
  split; [now apply (collision_distinct objects property k1 k2)|].
  split; [now apply map_get_of_key|].
  split; [now apply map_get_of_key|].
  split.
  { rewrite own_get_groupBy.
    now rewrite (collision_winner objects property k1 k2 Hbefore Hsame). }
  split.
  { intros s g o. now apply (collision_loser_absent objects property k1 k2). }
  intros s Hs. apply in_object_keys in Hs. rewrite own_get_groupBy in Hs.
  destruct (winner objects (as_function property) s) as [w|] eqn:W;
    [|now elim Hs].
  destruct (winner_some _ _ _ _ W) as [Hw [_ [o [Ho Hfo]]]].
  exists o. split; [assumption | congruence].
Qed.

Lemma groupBy_string_form_collision_witness :
  let objects := [item_n "a" 2; item_s "b" "2"] in
  written_before (VNumber 2) (VString "2") (write_order objects (get_prop "n"))
  /\ map_get (VNumber 2) (group_map objects (get_prop "n")) = Some [item_n "a" 2]
  /\ map_get (VString "2") (group_map objects (get_prop "n"))
     = Some [item_s "b" "2"]
  /\ own_get "2" (groupBy objects (PropName "n")) = Some [item_s "b" "2"].
Proof.
  intros objects.
  assert (Hb : written_before (VNumber 2) (VString "2")
                              (write_order objects (get_prop "n"))).
  { exists [], [], []. reflexivity. }
  destruct (groupBy_string_form_collision objects (PropName "n")
              (VNumber 2) (VString "2") Hb eq_refl)
    as [_ [H1 [H2 [H3 _]]]].
  split; [exact Hb | split; [exact H1 | split; [exact H2 | exact H3]]].
Defined.

(** C8.  Grouping an empty sequence gives an object without properties,
    and the items for which the selector gives [undefined] are all in
    one group, under the key ["undefined"], in input order; none is
    dropped. *)
Theorem groupBy_undefined_group (objects : list item) (property : selector) :
  let f := as_function property in
  groupBy [] property = empty_object
  /\ forall o, In o objects -> f o = VUndefined ->
       own_get (to_property_key VUndefined) (groupBy objects property)
       = Some (filter (key_is f VUndefined) objects)
       /\ In o (filter (key_is f VUndefined) objects).
Proof.
  intros f. subst f. split; [reflexivity|].
  intros o Ho Hu. split; [|apply filter_key_is_in; now split].
  rewrite own_get_groupBy.
  assert (Hin : In VUndefined (map_keys (group_map objects (as_function property))))
    by (apply in_map_keys; eauto).
  destruct (js_sort_undefined_last _ (group_map_nodup _ objects) Hin) as [l' E].
  unfold winner, write_order. rewrite E, last_with_snoc. reflexivity.
Qed.

Lemma groupBy_undefined_group_witness :
  let objects := [item_w "x"; item_s "y" "undefined"; item_w "z"] in
  own_get "undefined" (groupBy objects (PropName "n"))
  = Some [item_w "x"; item_w "z"].
Proof.
  intros objects.
  exact (proj1 (proj2 (groupBy_undefined_group objects (PropName "n"))
                  (item_w "x") (or_introl eq_refl) eq_refl)).
Defined.

(* ================================================================== *)
(** * The order in which the keys of the output are enumerated *)
(* ================================================================== *)

Lemma strongly_sorted_app {A : Type} (R : A -> A -> Prop) l1 l2 :
  StronglySorted R (l1 ++ l2)
  <-> StronglySorted R l1 /\ StronglySorted R l2
      /\ forall a b, In a l1 -> In b l2 -> R a b.
Proof.
  induction l1 as [|x l1 IH]; simpl.
  - split; [intros H; repeat split; [constructor | assumption | tauto] | tauto].
  - split.
    + intros H. apply StronglySorted_inv in H. destruct H as [Hs Hx].
      apply IH in Hs. destruct Hs as [H1 [H2 H12]].
      rewrite Forall_app in Hx. destruct Hx as [Hx1 Hx2].
      repeat split; [now constructor | assumption |].
      intros a b [<-|Ha] Hb; [|now apply H12].
      rewrite Forall_forall in Hx2. now apply Hx2.
    + intros [H1 [H2 H12]]. apply StronglySorted_inv in H1.
      destruct H1 as [H1 Hx]. constructor.
      * apply IH. repeat split; try assumption.
        intros a b Ha Hb. apply H12; [now right | assumption].
      * rewrite Forall_app. split; [assumption|].
        rewrite Forall_forall. intros b Hb. apply H12; [now left | assumption].
Qed.

Lemma strongly_sorted_filter {A : Type} (R : A -> A -> Prop) p l :
  StronglySorted R l -> StronglySorted R (filter p l).
Proof.
  induction 1 as [|x l Hs IH Hx]; simpl; [constructor|].
  destruct (p x); [|assumption]. constructor; [assumption|].
  rewrite Forall_forall in *. intros y Hy. apply Hx.
  now apply filter_In in Hy.
Qed.

(** ** The default sort gives a sorted list *)

Lemma string_compare_refl s : String.compare s s = Eq.
Proof. now apply String_as_OT.cmp_eq. Qed.

Lemma string_not_gt_trans s t u :
  String.compare s t <> Gt -> String.compare t u <> Gt ->
  String.compare s u <> Gt.
Proof.
  intros Hst Htu.
  destruct (String.compare s t) eqn:Est; [| |congruence].
  - apply String_as_OT.cmp_eq in Est. now subst.
  - destruct (String.compare t u) eqn:Etu; [| |congruence].
    + apply String_as_OT.cmp_eq in Etu. subst.
      unfold String_as_OT.cmp in *. congruence.
    + apply String_as_OT.cmp_lt in Est, Etu.
      pose proof (String_as_OT.lt_trans _ _ _ Est Etu) as H.
      apply String_as_OT.cmp_lt in H. unfold String_as_OT.cmp in H.
      congruence.
Qed.

Lemma sort_le_undefined_r x : sort_le x VUndefined.
Proof. unfold sort_le. destruct x; simpl; discriminate. Qed.

Lemma sort_le_strings x y :
  x <> VUndefined -> y <> VUndefined ->
  sort_compare x y = String.compare (to_string x) (to_string y).
Proof. destruct x, y; simpl; congruence. Qed.

Lemma sort_le_total x y : sort_compare x y = Gt -> sort_le y x.
Proof.
  unfold sort_le. intros H.
  destruct (same_value_zero_spec x VUndefined) as [->|Hx].
  - apply sort_le_undefined_r.
  - destruct (same_value_zero_spec y VUndefined) as [->|Hy].
    + destruct x; simpl in H; congruence.
    + rewrite sort_le_strings in H |- * by assumption.
      rewrite String.compare_antisym, H. discriminate.
Qed.

Lemma sort_le_trans x y z : sort_le x y -> sort_le y z -> sort_le x z.
Proof.
  intros Hxy Hyz.
  destruct (same_value_zero_spec z VUndefined) as [->|Hz];
    [apply sort_le_undefined_r|].
  assert (Hy : y <> VUndefined).
  { intros ->. apply Hyz. destruct z; simpl; congruence. }
  assert (Hx : x <> VUndefined).
  { intros ->. apply Hxy. destruct y; simpl; congruence. }
  unfold sort_le in *. rewrite sort_le_strings in * by assumption.
  eapply string_not_gt_trans; eassumption.
Qed.

Lemma sort_insert_sorted x l :
  StronglySorted sort_le l -> StronglySorted sort_le (sort_insert x l).
Proof.
  induction 1 as [|y l Hs IH Hy]; cbn [sort_insert].
  - repeat constructor.
  - destruct (sort_compare x y) eqn:E.
    + constructor; [now constructor|]. constructor;
        [unfold sort_le; congruence|].
      rewrite Forall_forall in *. intros z Hz.
      apply sort_le_trans with y; [unfold sort_le; congruence | now apply Hy].
    + constructor; [now constructor|]. constructor;
        [unfold sort_le; congruence|].
      rewrite Forall_forall in *. intros z Hz.
      apply sort_le_trans with y; [unfold sort_le; congruence | now apply Hy].
    + constructor; [assumption|].
      rewrite Forall_forall in *. intros z Hz.
      apply (Permutation_in _ (sort_insert_perm x l)) in Hz.
      destruct Hz as [<-|Hz]; [now apply sort_le_total | now apply Hy].
Qed.

Lemma js_sort_sorted l : StronglySorted sort_le (js_sort l).
Proof.
  induction l as [|x l IH]; simpl; [constructor | now apply sort_insert_sorted].
Qed.

(** ** Array indices come out in ascending numeric order *)

Lemma array_index_string s n :
  array_index s = Some n -> s = to_string (VNumber n).
Proof.
  unfold array_index. destruct (NilZero.int_of_string s) as [d|]; [|discriminate].
  destruct (String.eqb_spec (to_string (VNumber (Z.of_int d))) s) as [E|];
    [|discriminate].
  simpl. destruct (_ && _); [|discriminate]. intros H. injection H as <-.
  now symmetry.
Qed.

Lemma array_index_inj s t n :
  array_index s = Some n -> array_index t = Some n -> s = t.
Proof.
  intros Hs Ht. apply array_index_string in Hs, Ht. congruence.
Qed.

Lemma index_insert_sorted s l :
  is_array_index s = true -> Forall (fun t => is_array_index t = true) l ->
  ~ In s l -> StronglySorted index_lt l ->
  StronglySorted index_lt (index_insert s l).
Proof.
  intros Hs Hall Hnot Hsorted.
  induction Hsorted as [|t l Hsl IH Ht]; cbn [index_insert].
  - repeat constructor.
  - apply Forall_cons_iff in Hall. destruct Hall as [Hti Hall].
    unfold is_array_index in Hs, Hti.
    destruct (array_index s) as [a|] eqn:Ea; [|discriminate].
    destruct (array_index t) as [b|] eqn:Eb; [|discriminate].
    assert (Hab : a <> b).
    { intros ->. apply Hnot. left. now apply (array_index_inj t s b). }
    unfold index_leb. rewrite Ea, Eb.
    destruct (Z.leb_spec a b) as [Hle|Hlt].
    + constructor; [now constructor|].
      assert (Hst : index_lt s t) by (unfold index_lt; rewrite Ea, Eb; lia).
      constructor; [assumption|].
      rewrite Forall_forall in *. intros u Hu. specialize (Ht u Hu).
      unfold index_lt in *. rewrite Ea in *. rewrite Eb in *.
      destruct (array_index u); [lia | contradiction].
    + constructor.
      * apply IH; [assumption | intros H; apply Hnot; now right].
      * rewrite Forall_forall in *. intros u Hu.
        apply (Permutation_in _ (index_insert_perm s l)) in Hu.
        destruct Hu as [<-|Hu]; [|now apply Ht].
        unfold index_lt. rewrite Ea, Eb. lia.
Qed.

Lemma index_sort_sorted l :
  Forall (fun t => is_array_index t = true) l -> NoDup l ->
  StronglySorted index_lt (index_sort l).
Proof.
  intros Hall Hnd. induction Hnd as [|s l Hs Hnd IH]; cbn [index_sort];
    [constructor|].
  apply Forall_cons_iff in Hall. destruct Hall as [Hsi Hall].
  apply index_insert_sorted; try assumption.
  - rewrite Forall_forall in *. intros t Ht. apply Hall.
    now apply (Permutation_in _ (index_sort_perm l)).
  - intros H. apply Hs. now apply (Permutation_in _ (index_sort_perm l)).
  - now apply IH.
Qed.

(** ** The keys created by the second loop *)

(** The last key of [ks ++ [k]] has a group in the [Map] when all have. *)
Ltac written_group m Hall k g Hg :=
  destruct (map_get k m) as [g|] eqn:Hg;
  [|exfalso; apply (Hall k); [apply in_or_app; right; now left | assumption]].

Section CreatedKeys.
Variable m : jsmap.

Lemma created_keys_snoc ks k g :
  map_get k m = Some g ->
  created_keys m (ks ++ [k])
  = if (to_property_key k =? "__proto__")
       || assoc_has String.eqb (to_property_key k)
            (own (fold_left (result_step m) ks empty_object))
    then created_keys m ks
    else created_keys m ks ++ [to_property_key k].
Proof.
  intros Hg. unfold created_keys. rewrite fold_result_snoc.
  unfold result_step at 1. rewrite Hg. unfold obj_set.
  destruct (to_property_key k =? "__proto__"); simpl; [reflexivity|].
  apply (assoc_set_keys _ String.eqb_spec).
Qed.

Lemma assoc_has_created ks s :
  assoc_has String.eqb s (own (fold_left (result_step m) ks empty_object)) = true
  <-> In s (created_keys m ks).
Proof.
  unfold assoc_has, created_keys.
  destruct (assoc_get String.eqb s _) as [g|] eqn:E.
  - split; [intros _ | reflexivity].
    now apply (assoc_get_some_in _ String.eqb_spec) in E.
  - split; [discriminate|]. intros H.
    now apply (assoc_get_none _ String.eqb_spec) in E.
Qed.

Lemma created_keys_from ks s :
  (forall k, In k ks -> map_get k m <> None) ->
  In s (created_keys m ks) -> exists k, In k ks /\ to_property_key k = s.
Proof.
  induction ks as [|k ks IH] using rev_ind; intros Hall; [contradiction|].
  assert (Hall' : forall k', In k' ks -> map_get k' m <> None)
    by (intros k' H; apply Hall, in_or_app; now left).
  written_group m Hall k g Hg.
  rewrite (created_keys_snoc ks k g Hg). intros Hs.
  assert (Hold : In s (created_keys m ks) ->
                 exists k', In k' (ks ++ [k]) /\ to_property_key k' = s).
  { intros H. destruct (IH Hall' H) as [k' [Hk' E]].
    exists k'. split; [apply in_or_app; now left | assumption]. }
  destruct (_ || _); [now apply Hold|].
  apply in_app_or in Hs. destruct Hs as [Hs|[<-|[]]]; [now apply Hold|].
  exists k. split; [apply in_or_app; right; now left | reflexivity].
Qed.

Lemma written_key_created ks k :
  (forall k', In k' ks -> map_get k' m <> None) ->
  In k ks -> to_property_key k <> "__proto__" ->
  In (to_property_key k) (created_keys m ks).
Proof.
  intros Hall Hk Hp. unfold created_keys.
  destruct (assoc_get String.eqb (to_property_key k)
              (own (fold_left (result_step m) ks empty_object))) as [g|] eqn:E;
    [now apply (assoc_get_some_in _ String.eqb_spec) in E|].
  exfalso. fold (own_get (to_property_key k)
                   (fold_left (result_step m) ks empty_object)) in E.
  rewrite own_get_fold in E by assumption.
  destruct (last_with (to_property_key k) ks) as [k'|] eqn:L.
  - apply last_with_some in L. destruct L as [Hk' _]. now apply (Hall k').
  - rewrite last_with_none in L. now apply (L k).
Qed.

(** Group names that are not [undefined], written in sorted order,
    create their keys in strictly ascending order. *)
Lemma created_keys_sorted ks :
  (forall k, In k ks -> map_get k m <> None) ->
  ~ In VUndefined ks -> StronglySorted sort_le ks ->
  StronglySorted string_lt (created_keys m ks).
Proof.
  induction ks as [|k ks IH] using rev_ind; intros Hall Hnot Hsorted;
    [constructor|].
  assert (Hall' : forall k', In k' ks -> map_get k' m <> None)
    by (intros k' H; apply Hall, in_or_app; now left).
  apply strongly_sorted_app in Hsorted. destruct Hsorted as [Hs [_ Hle]].
  assert (IH' : StronglySorted string_lt (created_keys m ks)).
  { apply IH; try assumption. intros H. apply Hnot, in_or_app. now left. }
  written_group m Hall k g Hg.
  rewrite (created_keys_snoc ks k g Hg).
  destruct (to_property_key k =? "__proto__"); simpl; [assumption|].
  destruct (assoc_has String.eqb (to_property_key k) _) eqn:Ehas; [assumption|].
  apply strongly_sorted_app. repeat split; [assumption | repeat constructor |].
  intros a b Ha [<-|[]].
  destruct (created_keys_from ks a Hall' Ha) as [k' [Hk' <-]].
  assert (Hne : to_property_key k' <> to_property_key k).
  { intros E. rewrite <- E in Ehas.
    apply not_true_iff_false in Ehas. apply Ehas.
    now apply assoc_has_created. }
  assert (Hc := Hle k' k Hk' (or_introl eq_refl)).
  unfold sort_le in Hc. rewrite sort_le_strings in Hc.
  - unfold string_lt, to_property_key in *.
    destruct (String.compare (to_string k') (to_string k)) eqn:E;
      [|reflexivity|congruence].
    now apply String_as_OT.cmp_eq in E.
  - intros ->. apply Hnot, in_or_app. now left.
  - intros ->. apply Hnot, in_or_app. right. now left.
Qed.

Lemma created_keys_nodup ks : NoDup (created_keys m ks).
Proof. apply fold_result_nodup. constructor. Qed.
End CreatedKeys.

Section KeyOrder.
Variable objects : list item.
Variable property : selector.
Let f := as_function property.
Let m := group_map objects f.

Lemma write_order_written k :
  In k (write_order objects f) -> map_get k m <> None.
Proof.
  unfold write_order. rewrite js_sort_in. intros H.
  unfold m. now rewrite (map_get_of_key f objects k H).
Qed.

(** The write order is the sorted other group names, then [undefined]
    when it is a group name. *)
Lemma write_order_split :
  exists pre,
    ~ In VUndefined pre
    /\ write_order objects f
       = pre ++ (if existsb (key_is f VUndefined) objects
                 then [VUndefined] else []).
Proof.
  destruct (existsb (key_is f VUndefined) objects) eqn:E.
  - assert (Hin : In VUndefined (map_keys (group_map objects f)))
      by (apply in_map_keys; now apply existsb_key_is).
    destruct (js_sort_undefined_last _ (group_map_nodup f objects) Hin)
      as [pre Hpre].
    exists pre. split; [|exact Hpre].
    pose proof (write_order_nodup objects property) as Hnd.
    fold f in Hnd. unfold write_order in Hnd. rewrite Hpre in Hnd.
    apply NoDup_remove_2 in Hnd. now rewrite app_nil_r in Hnd.
  - exists (write_order objects f). split; [|now rewrite app_nil_r].
    intros H. apply in_write_order, existsb_key_is in H. fold f in H.
    congruence.
Qed.

Lemma groupBy_created_keys :
  exists pre,
    ~ In VUndefined pre
    /\ (forall k, In k pre -> In k (write_order objects f))
    /\ StronglySorted sort_le pre
    /\ map fst (own (groupBy objects property))
       = created_keys m pre ++ undefined_tail objects f.
Proof.
  destruct write_order_split as [pre [Hnot Hsplit]].
  assert (Hsub : forall k, In k pre -> In k (write_order objects f))
    by (intros k Hk; rewrite Hsplit; apply in_or_app; now left).
  assert (Hall : forall k, In k pre -> map_get k m <> None)
    by (intros k Hk; now apply write_order_written, Hsub).
  assert (Hsorted : StronglySorted sort_le pre).
  { pose proof (js_sort_sorted (map_keys (group_map objects f))) as H.
    fold (write_order objects f) in H. rewrite Hsplit in H.
    now apply strongly_sorted_app in H. }
  exists pre. repeat split; try assumption.
  change (map fst (own (groupBy objects property)))
    with (created_keys m (write_order objects f)).
  rewrite Hsplit. unfold undefined_tail.
  destruct (existsb (key_is f VUndefined) objects) eqn:Eu; simpl;
    [|now rewrite !app_nil_r].
  assert (Hu : In VUndefined (write_order objects f))
    by (rewrite Hsplit; apply in_or_app; right; now left).
  destruct (map_get VUndefined m) as [g|] eqn:Hg;
    [|now apply write_order_written in Hu].
  rewrite (created_keys_snoc m pre VUndefined g Hg). simpl.
  destruct (existsb (key_is f (VString "undefined")) objects) eqn:Es; simpl.
  - rewrite app_nil_r.
    assert (Hs : In (VString "undefined") pre).
    { apply existsb_key_is, in_write_order in Es. fold f in Es.
      rewrite Hsplit in Es. apply in_app_or in Es.
      destruct Es as [Es|[Es|[]]]; [assumption | discriminate Es]. }
    apply (written_key_created m pre _ Hall) in Hs; [|discriminate].
    apply assoc_has_created in Hs. simpl in Hs. now rewrite Hs.
  - destruct (assoc_has String.eqb "undefined" _) eqn:Ehas; [|reflexivity].
    exfalso. apply assoc_has_created in Ehas.
    apply (created_keys_from m pre _ Hall) in Ehas.
    destruct Ehas as [k [Hk Ek]].
    assert (k = VString "undefined").
    { destruct (same_string_form k VUndefined Ek) as [->|[->|H]];
        [contradiction | reflexivity | discriminate H]. }
    subst k. apply Hsub, in_write_order, existsb_key_is in Hk. fold f in Hk.
    congruence.
Qed.
End KeyOrder.

(** C2 as stated fails: for the group names [-1] and [1] the second loop
    writes ["-1"] then ["1"], and the object enumerates the array index
    ["1"] first; for [10] and [9] it writes ["10"] then ["9"] and the
    object enumerates ["9"] then ["10"]. *)
Lemma groupBy_keys_not_ascending :
  write_order [item_n "a" (-1); item_n "b" 1] (get_prop "n")
  = [VNumber (-1); VNumber 1]
  /\ object_keys (groupBy [item_n "a" (-1); item_n "b" 1] (PropName "n"))
     = ["1"; "-1"]
  /\ ascending (object_keys (groupBy [item_n "a" (-1); item_n "b" 1]
                                     (PropName "n"))) = false
  /\ write_order [item_n "a" 10; item_n "b" 9] (get_prop "n")
     = [VNumber 10; VNumber 9]
  /\ object_keys (groupBy [item_n "a" 10; item_n "b" 9] (PropName "n"))
     = ["9"; "10"]
  /\ ascending (object_keys (groupBy [item_n "a" 10; item_n "b" 9]
                                     (PropName "n"))) = false.
Proof. vm_compute. repeat split. Qed.

(** C2 (amended).  The keys of the output are enumerated in this order,
    whatever the order of the input: first the keys that are array
    indices, in ascending numeric order; then the other keys in
    ascending order of their code units; and last the key ["undefined"]
    of the group name [undefined], when no group name is the string
    ["undefined"].  Grouping [[{w:'a',n:2},{w:'b',n:1},{w:'c',n:2}]] by
    [n] gives the keys [["1"; "2"]]. *)
Theorem groupBy_key_order (objects : list item) (property : selector) :
  let f := as_function property in
  (exists indices others,
     object_keys (groupBy objects property)
     = indices ++ others ++ undefined_tail objects f
     /\ Forall (fun s => is_array_index s = true) indices
     /\ StronglySorted index_lt indices
     /\ Forall (fun s => is_array_index s = false) others
     /\ StronglySorted string_lt others)
  /\ object_keys (groupBy [item_n "a" 2; item_n "b" 1; item_n "c" 2]
                          (PropName "n")) = ["1"; "2"].
Proof.
  intros f. subst f. split; [|reflexivity].
  destruct (groupBy_created_keys objects property)
    as [pre [Hnot [Hsub [Hsorted Hkeys]]]].
  set (f := as_function property) in *.
  set (m := group_map objects f) in *.
  assert (Hall : forall k, In k pre -> map_get k m <> None).
  { intros k Hk. apply (write_order_written objects property), Hsub, Hk. }
  exists (index_sort (filter is_array_index (created_keys m pre))),
         (filter (fun s => negb (is_array_index s)) (created_keys m pre)).
  split; [|split; [|split; [|split]]].
  - unfold object_keys, own_keys, ordinary_keys. rewrite Hkeys.
    rewrite !filter_app. f_equal.
    + f_equal. unfold undefined_tail.
      destruct (_ && _); simpl; now rewrite app_nil_r.
    + f_equal. unfold undefined_tail. now destruct (_ && _).
  - rewrite Forall_forall. intros s Hs.
    apply (Permutation_in _ (index_sort_perm _)) in Hs.
    now apply filter_In in Hs.
  - apply index_sort_sorted.
    + rewrite Forall_forall. intros s Hs. now apply filter_In in Hs.
    + apply NoDup_filter, created_keys_nodup.
  - rewrite Forall_forall. intros s Hs. apply filter_In in Hs.
    now apply negb_true_iff.
  - apply strongly_sorted_filter. now apply created_keys_sorted.
Qed.

(* ================================================================== *)
(** * Properties of the Datamuse client *)
(* ================================================================== *)

Lemma url_builders_read_the_input (w w' : string) (pg : page) :
  getDatamuseRhymeUrl w pg = getDatamuseRhymeUrl w' pg
  /\ getDatamuseSimilarToUrl w pg = getDatamuseSimilarToUrl w' pg.
Proof. split; reflexivity. Qed.

(** C3.  The URL builders do not use their argument: with ["dog"] in the
    input field, the URLs built for the argument ["cat"] carry ["dog"],
    and the URLs built for ["cat"] and for ["hat"] are the same. *)
Theorem url_builders_ignore_argument :
  let pg := initial_page "dog" [] in
  getDatamuseRhymeUrl "cat" pg = "https://api.datamuse.com/words?rel_rhy=dog"
  /\ getDatamuseSimilarToUrl "cat" pg = "https://api.datamuse.com/words?ml=dog"
  /\ getDatamuseRhymeUrl "cat" pg = getDatamuseRhymeUrl "hat" pg
  /\ getDatamuseSimilarToUrl "cat" pg = getDatamuseSimilarToUrl "hat" pg.
Proof. vm_compute. repeat split. Qed.

(** C4.  When [fetch] rejects, or the body of the response does not
    parse, the chain of [datamuseRequest] ends with a fulfilled promise
    (nothing is thrown to the caller), the error has been passed to
    [console.error], and the page is otherwise as it was: whatever the
    callback is, it has not run, and the display and the saved words are
    unchanged.  Starting the request does not change the page either. *)
Theorem datamuseRequest_failure_logged
    (url : string) (outcome : settled response) (cb : callback)
    (w : world) (err : js_error) :
  outcome = Rejected err
  \/ (exists resp, outcome = Fulfilled resp /\ response_json resp = Rejected err) ->
  let pg := the_page (datamuseRequest url cb w) in
  pg = the_page w
  /\ settle_request outcome cb pg = (console_error err pg, Fulfilled tt)
  /\ wordOutput (fst (settle_request outcome cb pg)) = wordOutput pg
  /\ savedWords_innerHTML (fst (settle_request outcome cb pg))
     = savedWords_innerHTML pg
  /\ savedWordsArray (fst (settle_request outcome cb pg)) = savedWordsArray pg
  /\ console (fst (settle_request outcome cb pg)) = console pg ++ [err]
  /\ (forall cb' : callback,
        settle_request outcome cb' pg = settle_request outcome cb pg).
Proof.
  intros Hfail pg.
  assert (E : forall c : callback,
             settle_request outcome c pg = (console_error err pg, Fulfilled tt)).
  { intros c. unfold settle_request.
    destruct Hfail as [->|[resp [-> Hjson]]]; simpl; [reflexivity|].
    now rewrite Hjson. }
  rewrite (E cb). repeat split. intros cb'. apply E.
Qed.

Lemma datamuseRequest_failure_logged_witness :
  let pg := initial_page "cat" [Markup "<h2>...loading<h2>"] in
  let w := {| the_page := pg; in_flight := [] |} in
  let broken := {| response_json := Rejected (SyntaxError "Unexpected token") |} in
  settle_request (Rejected (NetworkError "Failed to fetch")) showRhymes pg
  = (console_error (NetworkError "Failed to fetch") pg, Fulfilled tt)
  /\ settle_request (Fulfilled broken) showRhymes pg
     = (console_error (SyntaxError "Unexpected token") pg, Fulfilled tt).
Proof.
  intros pg w broken. split.
  - exact (proj1 (proj2 (datamuseRequest_failure_logged
                           "https://api.datamuse.com/words?rel_rhy=cat"
                           (Rejected (NetworkError "Failed to fetch"))
                           showRhymes w (NetworkError "Failed to fetch")
                           (or_introl eq_refl)))).
  - exact (proj1 (proj2 (datamuseRequest_failure_logged
                           "https://api.datamuse.com/words?rel_rhy=cat"
                           (Fulfilled broken)
                           showRhymes w (SyntaxError "Unexpected token")
                           (or_intror (ex_intro _ broken
                                         (conj eq_refl eq_refl)))))).
Defined.

(* ================================================================== *)
(** * Properties of the saved words *)
(* ================================================================== *)

Lemma save_all_snoc ws w pg :
  save_all (ws ++ [w]) pg = addToSavedWords (VString w) (save_all ws pg).
Proof. unfold save_all. now rewrite fold_left_app. Qed.

Lemma save_all_array ws pg :
  savedWordsArray (save_all ws pg) = savedWordsArray pg ++ map VString ws.
Proof.
  induction ws as [|w ws IH] using rev_ind.
  - simpl. now rewrite app_nil_r.
  - rewrite save_all_snoc. simpl. rewrite IH, map_app, app_assoc. reflexivity.
Qed.

Lemma array_join_strings sep ws :
  array_join sep (map VString ws) = String.concat sep ws.
Proof. unfold array_join. rewrite map_map. simpl. now rewrite map_id. Qed.

Lemma click_save_button word pg :
  click (generatesavedbtn word) pg = addToSavedWords word pg.
Proof. reflexivity. Qed.

(** C5.  Every save appends its word to the end of the saved words, and
    after every save of a sequence of saves the display is the saved
    words joined by [", "] in save order; from the initial page these
    are the words of the sequence, so ["cat"] then ["hat"] shows
    ["cat, hat"] and ["cat"] twice shows ["cat, cat"]. *)
Theorem addToSavedWords_display (pg : page) (ws : list string) (w : string) :
  let after := save_all (ws ++ [w]) pg in
  savedWordsArray (addToSavedWords (VString w) pg)
  = savedWordsArray pg ++ [VString w]
  /\ savedWordsArray after = savedWordsArray pg ++ map VString (ws ++ [w])
  /\ savedWords_innerHTML after = array_join ", " (savedWordsArray after)
  /\ (forall input output,
        savedWords_innerHTML (save_all (ws ++ [w]) (initial_page input output))
        = String.concat ", " (ws ++ [w]))
  /\ (forall input output,
        savedWords_innerHTML (save_all ["cat"; "hat"] (initial_page input output))
        = "cat, hat"
        /\ savedWords_innerHTML
             (save_all ["cat"; "cat"] (initial_page input output))
           = "cat, cat").
Proof.
  intros after. subst after.
  assert (Hshow : forall p, savedWords_innerHTML (save_all (ws ++ [w]) p)
                            = array_join ", " (savedWordsArray
                                                 (save_all (ws ++ [w]) p))).
  { intros p. now rewrite save_all_snoc. }
  split; [reflexivity|].
  split; [apply save_all_array|].
  split; [apply Hshow|].
  split.
  - intros input output. rewrite Hshow, save_all_array. simpl.
    apply array_join_strings.
  - intros input output. split; reflexivity.
Qed.

(* ================================================================== *)
(** * Properties of the renderers and event listeners *)
(* ================================================================== *)

(** C7.  Both renderers, given an empty result sequence, show the "no
    results" indicator and nothing else, so no save control. *)
Theorem empty_results_no_controls (pg : page) :
  let shown := set_wordOutput_innerHTML "(no results)" pg in
  showRhymes [] pg = Normal shown
  /\ showSynonyms [] pg = Normal shown
  /\ wordOutput shown = [Markup "(no results)"]
  /\ displayed_save_controls shown = [].
Proof. repeat split. Qed.

(** The rhyme response of the specification gives two sections, "1"
    before "2", with "light" and "bright" under the first and "delight"
    under the second, each word with its save control. *)
Example showRhymes_sections :
  showRhymes [word_result "light" 1; word_result "bright" 1;
              word_result "delight" 2]
             (initial_page "night" [])
  = Normal
      (wordOutput_appendChild
         (Element "div" [] []
            [Element "h3" [] [] [Markup "Syllables: 1"];
             Element "ul" [] []
               [word_entry (VString "light"); word_entry (VString "bright")];
             Element "h3" [] [] [Markup "Syllables: 2"];
             Element "ul" [] [] [word_entry (VString "delight")]])
         (set_wordOutput_innerHTML "<h2>Words that rhyme with night<h2>"
            (initial_page "night" []))).
Proof. reflexivity. Qed.

(** C9.  Pressing Enter in the input field does what a click on "show
    rhymes" does: the display becomes the loading indicator and a
    request is started for the rhyme URL of the word in the input field,
    whose response goes to [showRhymes]. *)
Theorem enter_is_show_rhymes_click (w : world) :
  wordInput_keypress "Enter" w = showRhymesButton_click w
  /\ wordOutput (the_page (showRhymesButton_click w))
     = [Markup "<h2>...loading<h2>"]
  /\ in_flight (showRhymesButton_click w)
     = in_flight w
         ++ [{| req_url := ("https://api.datamuse.com/words?"
                              ++ url_search_params
                                   [("rel_rhy", wordInput_value (the_page w))])%string;
                req_callback := showRhymes |}]
  /\ (forall resp data pg,
        response_json resp = Fulfilled data ->
        fst (settle_request (Fulfilled resp) showRhymes pg)
        = match showRhymes data pg with Normal p | Throw _ p => p end).
Proof.
  repeat split.
  intros resp data pg Hjson. unfold settle_request. simpl. rewrite Hjson.
  now destruct (showRhymes data pg).
Qed.

Lemma enter_is_show_rhymes_click_witness :
  let w := {| the_page := initial_page "night" []; in_flight := [] |} in
  let data := [[("word", VString "light"); ("numSyllables", VNumber 1)]] in
  fst (settle_request (Fulfilled {| response_json := Fulfilled data |})
         showRhymes (the_page (wordInput_keypress "Enter" w)))
  = match showRhymes data (the_page (showRhymesButton_click w)) with
    | Normal p | Throw _ p => p
    end.
Proof.
  intros w data.
  exact (proj2 (proj2 (proj2 (enter_is_show_rhymes_click w)))
           {| response_json := Fulfilled data |} data
           (the_page (wordInput_keypress "Enter" w)) eq_refl).
Defined.

(* ================================================================== *)
(** * More on the request URLs *)
(* ================================================================== *)

Lemma string_forall_app p s t :
  string_forall p (s ++ t)%string = string_forall p s && string_forall p t.
Proof.
  induction s as [|c s IH]; simpl; [reflexivity|].
  now rewrite IH, andb_assoc.
Qed.

Lemma form_encode_byte_chars c :
  string_forall query_char (form_encode_byte c) = true.
Proof. destruct c as [[] [] [] [] [] [] [] []]; reflexivity. Qed.

Lemma form_encode_bytes_chars s :
  string_forall query_char (form_encode_bytes s) = true.
Proof.
  induction s as [|c s IH]; [reflexivity|].
  cbn [form_encode_bytes]. now rewrite string_forall_app, form_encode_byte_chars.
Qed.

Lemma form_decode_encode_byte c t :
  form_decode_bytes (form_encode_byte c ++ t)%string
  = String c (form_decode_bytes t).
Proof. destruct c as [[] [] [] [] [] [] [] []]; reflexivity. Qed.

Lemma form_decode_encode_bytes s :
  form_decode_bytes (form_encode_bytes s) = s.
Proof.
  induction s as [|c s IH]; [reflexivity|].
  cbn [form_encode_bytes]. now rewrite form_decode_encode_byte, IH.
Qed.

Lemma utf8_decode_encode s : utf8_decode (utf8_encode s) = s.
Proof.
  induction s as [|c s IH]; [reflexivity|].
  destruct c as [[] [] [] [] [] [] [] []]; cbn; now rewrite IH.
Qed.

Lemma form_encode_inj s t : form_encode s = form_encode t -> s = t.
Proof.
  unfold form_encode. intros E.
  apply (f_equal form_decode_bytes) in E.
  rewrite !form_decode_encode_bytes in E.
  apply (f_equal utf8_decode) in E. now rewrite !utf8_decode_encode in E.
Qed.

Lemma form_encode_safe s :
  string_forall form_safe s = true -> form_encode s = s.
Proof.
  unfold form_encode. induction s as [|c s IH]; [reflexivity|].
  cbn [string_forall]. intros H. apply andb_true_iff in H.
  destruct H as [Hc Hs]. specialize (IH Hs).
  destruct c as [[] [] [] [] [] [] [] []]; try discriminate Hc;
    cbn; now rewrite IH.
Qed.

Lemma rhyme_url_shape a pg :
  getDatamuseRhymeUrl a pg
  = ("https://api.datamuse.com/words?rel_rhy="
       ++ form_encode (wordInput_value pg))%string.
Proof. reflexivity. Qed.

Lemma similar_url_shape a pg :
  getDatamuseSimilarToUrl a pg
  = ("https://api.datamuse.com/words?ml="
       ++ form_encode (wordInput_value pg))%string.
Proof. reflexivity. Qed.

Lemma append_inj_l p s t : (p ++ s = p ++ t)%string -> s = t.
Proof.
  induction p as [|c p IH]; simpl; [tauto|].
  intros E. injection E. exact IH.
Qed.

(** The request URLs are the endpoint, the one parameter name and a
    value made of letters, digits, [* - . _ + %] only: whatever the
    input field holds, it cannot add a parameter or a fragment. *)
Theorem request_urls_well_formed (a : string) (pg : page) :
  exists v,
    getDatamuseRhymeUrl a pg
    = ("https://api.datamuse.com/words?rel_rhy=" ++ v)%string
    /\ getDatamuseSimilarToUrl a pg
       = ("https://api.datamuse.com/words?ml=" ++ v)%string
    /\ string_forall query_char v = true.
Proof.
  exists (form_encode (wordInput_value pg)).
  split; [apply rhyme_url_shape | split; [apply similar_url_shape|]].
  apply form_encode_bytes_chars.
Qed.

(** A word of letters, digits and [* - . _] is sent as it is. *)
Theorem request_urls_plain_word (a : string) (pg : page) :
  string_forall form_safe (wordInput_value pg) = true ->
  getDatamuseRhymeUrl a pg
  = ("https://api.datamuse.com/words?rel_rhy=" ++ wordInput_value pg)%string
  /\ getDatamuseSimilarToUrl a pg
     = ("https://api.datamuse.com/words?ml=" ++ wordInput_value pg)%string.
Proof.
  intros H. rewrite rhyme_url_shape, similar_url_shape.
  now rewrite (form_encode_safe _ H).
Qed.

Lemma request_urls_plain_word_witness :
  getDatamuseRhymeUrl "x" (initial_page "night-time" [])
  = "https://api.datamuse.com/words?rel_rhy=night-time".
Proof.
  exact (proj1 (request_urls_plain_word "x" (initial_page "night-time" [])
                  eq_refl)).
Defined.

(** Different words in the input field give different request URLs:
    the serialization of the word loses nothing. *)
Theorem request_urls_distinguish_words (a a' : string) (pg pg' : page) :
  wordInput_value pg <> wordInput_value pg' ->
  getDatamuseRhymeUrl a pg <> getDatamuseRhymeUrl a' pg'
  /\ getDatamuseSimilarToUrl a pg <> getDatamuseSimilarToUrl a' pg'.
Proof.
  intros Hne. rewrite !rhyme_url_shape, !similar_url_shape.
  split; intros E; apply append_inj_l, form_encode_inj in E; contradiction.
Qed.

Lemma request_urls_distinguish_words_witness :
  getDatamuseRhymeUrl "x" (initial_page "a b" [])
  <> getDatamuseRhymeUrl "x" (initial_page "a+b" []).
Proof.
  refine (proj1 (request_urls_distinguish_words "x" "x"
                   (initial_page "a b" []) (initial_page "a+b" []) _)).
  simpl. discriminate.
Defined.

(* ================================================================== *)
(** * More on the renderers and the save controls *)
(* ================================================================== *)

Lemma save_controls_entries g :
  flat_map save_controls (group_entries g) = map (get_prop "word") g.
Proof.
  unfold group_entries. induction g as [|o g IH]; [reflexivity|].
  simpl. now rewrite IH.
Qed.

Lemma save_buttons_entries g :
  flat_map save_buttons (group_entries g)
  = map (fun o => generatesavedbtn (get_prop "word" o)) g.
Proof.
  unfold group_entries. induction g as [|o g IH]; [reflexivity|].
  simpl. now rewrite IH.
Qed.

Lemma save_controls_sections data ks :
  flat_map save_controls (flat_map (rhyme_section data) ks)
  = map (get_prop "word") (flat_map (group_at data) ks).
Proof.
  induction ks as [|s ks IH]; [reflexivity|].
  cbn [flat_map]. rewrite flat_map_app, map_app, IH. f_equal.
  cbn [rhyme_section flat_map save_controls map app].
  rewrite app_nil_r. apply save_controls_entries.
Qed.

(** The inner loops over own groups never throw. *)
Lemma render_own_groups data ks :
  render_groups (map (fun s => (s, inl (group_at data s))) ks)
  = inr (flat_map (rhyme_section data) ks).
Proof.
  induction ks as [|s ks IH]; [reflexivity|].
  cbn [map render_groups]. rewrite IH. reflexivity.
Qed.

Lemma proto_obj_set key g r :
  proto (obj_set key g r) = if key =? "__proto__" then Some g else proto r.
Proof. unfold obj_set. now destruct (key =? "__proto__"). Qed.

Lemma proto_fold m ks r :
  (forall k, In k ks -> map_get k m <> None) ->
  proto (fold_left (result_step m) ks r)
  = match last_with "__proto__" ks with
    | Some k => map_get k m
    | None => proto r
    end.
Proof.
  induction ks as [|k ks IH] using rev_ind; intros Hall; [reflexivity|].
  rewrite fold_result_snoc, last_with_snoc. unfold result_step at 1.
  written_group m Hall k g Hg.
  rewrite proto_obj_set.
  destruct (to_property_key k =? "__proto__"); [congruence|].
  apply IH. intros k' Hk'. apply Hall, in_or_app. now left.
Qed.

Section Prototype.
Variable objects : list item.
Variable property : selector.
Let f := as_function property.

Lemma last_with_proto :
  last_with "__proto__" (write_order objects f)
  = if existsb (key_is f (VString "__proto__")) objects
    then Some (VString "__proto__") else None.
Proof.
  destruct (existsb (key_is f (VString "__proto__")) objects) eqn:E.
  - apply last_with_unique; [|reflexivity|].
    + apply in_write_order. now apply existsb_key_is.
    + intros k' _ Hk'. now apply proto_key_is_string.
  - apply last_with_none. intros k Hk E'.
    apply proto_key_is_string in E'. subst k.
    apply in_write_order, existsb_key_is in Hk. fold f in Hk. congruence.
Qed.

Lemma proto_groupBy :
  proto (groupBy objects property)
  = if existsb (key_is f (VString "__proto__")) objects
    then Some (filter (key_is f (VString "__proto__")) objects)
    else None.
Proof.
  unfold groupBy. fold f. fold (write_order objects f).
  rewrite proto_fold.
  - rewrite last_with_proto.
    destruct (existsb (key_is f (VString "__proto__")) objects) eqn:E;
      [|reflexivity].
    now rewrite map_get_group_map, E.
  - intros k Hk. now apply (write_order_written objects property).
Qed.

Lemma proto_groupBy_none :
  no_proto_key objects f -> proto (groupBy objects property) = None.
Proof.
  intros Hp. rewrite proto_groupBy.
  destruct (existsb (key_is f (VString "__proto__")) objects) eqn:E;
    [|reflexivity].
  apply existsb_key_is in E. destruct E as [o [Ho E]].
  exfalso. apply (Hp o Ho). now rewrite E.
Qed.
End Prototype.

(** A group named ["__proto__"] is no own property of the output: it
    replaces the prototype of the output, and only such a group does. *)
Theorem groupBy_prototype (objects : list item) (property : selector) :
  let f := as_function property in
  let result := groupBy objects property in
  proto result
  = (if existsb (key_is f (VString "__proto__")) objects
     then Some (filter (key_is f (VString "__proto__")) objects)
     else None)
  /\ own_get "__proto__" result = None
  /\ ~ In "__proto__" (object_keys result).
Proof.
  intros f result. subst f result.
  split; [apply proto_groupBy|].
  assert (H : own_get "__proto__" (groupBy objects property) = None)
    by apply own_get_fold_proto.
  split; [exact H|]. rewrite in_object_keys. congruence.
Qed.

Section RhymeGroups.
Variable data : list item.
Let f := get_prop "numSyllables".
Let grouped_data := groupBy data (PropName "numSyllables").

Lemma showRhymes_normal pg :
  no_proto_key data f ->
  showRhymes data pg
  = Normal
      match data with
      | [] => set_wordOutput_innerHTML "(no results)" pg
      | _ :: _ =>
          wordOutput_appendChild
            (Element "div" [] []
               (flat_map (rhyme_section grouped_data) (object_keys grouped_data)))
            (set_wordOutput_innerHTML
               ("<h2>Words that rhyme with " ++ wordInput_value pg
                  ++ "<h2>")%string pg)
      end.
Proof.
  intros Hp. destruct data as [|o rest] eqn:E; [reflexivity|].
  unfold showRhymes. fold grouped_data. unfold for_in_keys.
  replace (proto grouped_data) with (@None (list item))
    by (symmetry; apply (proto_groupBy_none (o :: rest) (PropName "numSyllables") Hp)).
  now rewrite app_nil_r, render_own_groups.
Qed.

Lemma rhyme_controls pg :
  no_proto_key data f ->
  displayed_save_controls (completion_page (showRhymes data pg))
  = map (get_prop "word")
        (flat_map (group_at grouped_data) (object_keys grouped_data)).
Proof.
  intros Hp. rewrite (showRhymes_normal pg Hp). destruct data as [|o rest] eqn:E.
  - reflexivity.
  - unfold displayed_save_controls, completion_page. cbn [wordOutput
      wordOutput_appendChild set_wordOutput_innerHTML app flat_map
      save_controls map].
    rewrite app_nil_r. apply save_controls_sections.
Qed.

Lemma groups_in_key_order :
  distinct_keys data f -> no_proto_key data f ->
  Permutation (flat_map (group_at grouped_data) (object_keys grouped_data))
              data.
Proof.
  intros Hd Hp.
  transitivity (flatten grouped_data);
    [|apply (flatten_perm data (PropName "numSyllables") Hd Hp)].
  unfold flatten. now rewrite sorted_keys_perm.
Qed.

Lemma numbers_distinct_keys :
  Forall (fun o => number_or_missing (f o) = true) data ->
  distinct_keys data f /\ no_proto_key data f.
Proof.
  rewrite Forall_forall. intros H. split.
  - intros a b Ha Hb E. apply H in Ha, Hb.
    destruct (same_string_form (f a) (f b) E) as [Hab|[Hab|Hab]];
      [assumption | rewrite Hab in Ha | rewrite Hab in Hb]; discriminate.
  - intros a Ha E. apply H in Ha. apply proto_key_is_string in E.
    rewrite E in Ha. discriminate.
Qed.
End RhymeGroups.

(** When no syllable count is the string ["__proto__"], [showRhymes]
    does not throw; the display is the heading with the input word and,
    for each key of the grouped results in enumeration order, a heading
    and the list of the words of that group; the save controls are the
    words of the groups in that order; the saved words stay as they
    are. *)
Theorem showRhymes_renders_groups (data : list item) (pg : page) :
  let grouped_data := groupBy data (PropName "numSyllables") in
  no_proto_key data (get_prop "numSyllables") ->
  exists p,
    showRhymes data pg = Normal p
    /\ wordOutput p
       = match data with
         | [] => [Markup "(no results)"]
         | _ :: _ =>
             [Markup ("<h2>Words that rhyme with " ++ wordInput_value pg
                        ++ "<h2>")%string;
              Element "div" [] []
                (flat_map (rhyme_section grouped_data)
                          (object_keys grouped_data))]
         end
    /\ displayed_save_controls p
       = map (get_prop "word")
             (flat_map (group_at grouped_data) (object_keys grouped_data))
    /\ savedWordsArray p = savedWordsArray pg
    /\ savedWords_innerHTML p = savedWords_innerHTML pg.
Proof.
  intros grouped_data Hp. subst grouped_data.
  pose proof (rhyme_controls data pg Hp) as Hc.
  rewrite (showRhymes_normal data pg Hp) in Hc |- *.
  eexists. split; [reflexivity|]. split; [|split; [exact Hc|]].
  - now destruct data.
  - now destruct data.
Qed.

Lemma showRhymes_renders_groups_witness :
  let data := [word_result "delight" 2; word_result "light" 1;
               word_result "bright" 1] in
  exists p,
    showRhymes data (initial_page "night" []) = Normal p
    /\ displayed_save_controls p
       = [VString "light"; VString "bright"; VString "delight"].
Proof.
  intros data.
  assert (Hp : no_proto_key data (get_prop "numSyllables")).
  { intros a Ha. simpl in Ha.
    destruct Ha as [<-|[<-|[<-|[]]]]; vm_compute; discriminate. }
  destruct (showRhymes_renders_groups data (initial_page "night" []) Hp)
    as [p [Hshow [_ [Hc _]]]].
  exists p. split; [exact Hshow | exact Hc].
Defined.

(** When every syllable count is a Number or is missing, [showRhymes]
    does not throw and gives every word of the response one save
    control: none is lost, none is shown twice. *)
Theorem showRhymes_every_word_once (data : list item) (pg : page) :
  Forall (fun o => number_or_missing (get_prop "numSyllables" o) = true) data ->
  exists p,
    showRhymes data pg = Normal p
    /\ Permutation (displayed_save_controls p) (map (get_prop "word") data).
Proof.
  intros H. destruct (numbers_distinct_keys data H) as [Hd Hp].
  pose proof (rhyme_controls data pg Hp) as Hc.
  rewrite (showRhymes_normal data pg Hp) in Hc |- *.
  eexists. split; [reflexivity|].
  cbn [completion_page] in Hc. rewrite Hc.
  apply Permutation_map. now apply groups_in_key_order.
Qed.

Lemma showRhymes_every_word_once_witness :
  let data := [word_result "delight" 2; [("word", VString "the night")];
               word_result "light" 1] in
  exists p,
    showRhymes data (initial_page "night" []) = Normal p
    /\ Permutation (displayed_save_controls p)
                   [VString "delight"; VString "the night"; VString "light"].
Proof.
  intros data.
  refine (showRhymes_every_word_once data (initial_page "night" []) _).
  repeat constructor.
Defined.

Lemma showSynonyms_shape (data : list item) (pg : page) :
  exists p,
    showSynonyms data pg = Normal p
    /\ displayed_save_controls p = map (get_prop "word") data
    /\ savedWordsArray p = savedWordsArray pg
    /\ console p = console pg.
Proof.
  destruct data as [|o rest].
  - eexists. split; [reflexivity|]. repeat split.
  - eexists. split; [reflexivity|]. repeat split.
    unfold displayed_save_controls. cbn [wordOutput wordOutput_appendChild
      set_wordOutput_innerHTML app flat_map save_controls map].
    rewrite !app_nil_r. apply (save_controls_entries (o :: rest)).
Qed.

(** [showSynonyms] never throws, gives every word of the response one
    save control, in the order of the response, and leaves the saved
    words and the input field as they are. *)
Theorem showSynonyms_controls (data : list item) (pg : page) :
  exists p,
    showSynonyms data pg = Normal p
    /\ displayed_save_controls p = map (get_prop "word") data
    /\ savedWordsArray p = savedWordsArray pg
    /\ savedWords_innerHTML p = savedWords_innerHTML pg
    /\ wordInput_value p = wordInput_value pg.
Proof.
  destruct data as [|o rest].
  - eexists. split; [reflexivity|]. repeat split.
  - eexists. split; [reflexivity|]. repeat split.
    unfold displayed_save_controls. cbn [wordOutput wordOutput_appendChild
      set_wordOutput_innerHTML app flat_map save_controls map].
    rewrite !app_nil_r. apply (save_controls_entries (o :: rest)).
Qed.

Lemma click_all_buttons ws pg :
  click_all (map generatesavedbtn ws) pg
  = fold_left (fun p w => addToSavedWords w p) ws pg.
Proof.
  unfold click_all. revert pg.
  induction ws as [|w ws IH]; intros pg; [reflexivity|]. simpl. apply IH.
Qed.

Lemma save_values ws pg :
  let after := fold_left (fun p w => addToSavedWords w p) ws pg in
  savedWordsArray after = savedWordsArray pg ++ ws
  /\ wordOutput after = wordOutput pg
  /\ savedWords_innerHTML after
     = match ws with
       | [] => savedWords_innerHTML pg
       | _ :: _ => array_join ", " (savedWordsArray after)
       end.
Proof.
  induction ws as [|w ws IH] using rev_ind; simpl.
  - now rewrite app_nil_r.
  - rewrite fold_left_app. simpl. destruct IH as [Ha [Ho _]].
    rewrite Ha, Ho, app_assoc. repeat split.
    now destruct ws.
Qed.

(** Clicking the save controls of a rendered list of similar words from
    top to bottom saves the words of the response in their order, shows
    them joined by [", "], and leaves the rendered list in place. *)
Theorem save_every_synonym (data : list item) (pg : page) :
  let shown := completion_page (showSynonyms data pg) in
  let after := click_all (flat_map save_buttons (wordOutput shown)) shown in
  savedWordsArray after = savedWordsArray pg ++ map (get_prop "word") data
  /\ wordOutput after = wordOutput shown
  /\ savedWords_innerHTML after
     = match data with
       | [] => savedWords_innerHTML pg
       | _ :: _ => array_join ", " (savedWordsArray after)
       end.
Proof.
  intros shown after.
  assert (Hb : flat_map save_buttons (wordOutput shown)
               = map generatesavedbtn (map (get_prop "word") data)).
  { subst shown. destruct data as [|o rest]; [reflexivity|].
    cbn [showSynonyms completion_page wordOutput wordOutput_appendChild
         set_wordOutput_innerHTML app flat_map save_buttons].
    rewrite !app_nil_r, (save_buttons_entries (o :: rest)).
    now rewrite map_map. }
  subst after. rewrite Hb, click_all_buttons.
  destruct (save_values (map (get_prop "word") data) shown) as [Ha [Ho Hs]].
  split; [|split; [exact Ho|]].
  - rewrite Ha. subst shown. now destruct data.
  - rewrite Hs. now destruct data.
Qed.

Section LastRender.
Variable cb : callback.
Hypothesis Hcb : is_renderer cb.

(** A renderer writes the display only. *)
Lemma renderer_frame data pg :
  let p := completion_page (cb data pg) in
  wordInput_value p = wordInput_value pg
  /\ savedWordsArray p = savedWordsArray pg
  /\ savedWords_innerHTML p = savedWords_innerHTML pg
  /\ console p = console pg.
Proof.
  destruct Hcb as [-> | ->]; destruct data as [|o rest];
    try (repeat split; fail).
  unfold showRhymes.
  destruct (render_groups _); repeat split.
Qed.

Lemma settle_frame outcome pg :
  let p := fst (settle_request outcome cb pg) in
  wordInput_value p = wordInput_value pg
  /\ savedWordsArray p = savedWordsArray pg
  /\ savedWords_innerHTML p = savedWords_innerHTML pg.
Proof.
  unfold settle_request.
  destruct (then_ outcome response_json) as [data|e]; [|repeat split].
  destruct (renderer_frame data pg) as [H1 [H2 [H3 _]]].
  destruct (cb data pg); simpl in *; auto.
Qed.

(** What a renderer displays depends on the response and on the input
    field only, when it does not throw. *)
Lemma renderer_display data pg pg' :
  no_proto_key data (get_prop "numSyllables") ->
  wordInput_value pg = wordInput_value pg' ->
  (exists p, cb data pg = Normal p)
  /\ wordOutput (completion_page (cb data pg))
     = wordOutput (completion_page (cb data pg')).
Proof.
  intros Hp Hw. destruct Hcb as [-> | ->].
  - rewrite !(showRhymes_normal data _ Hp). split; [eauto|].
    destruct data; [reflexivity|]. simpl. now rewrite Hw.
  - destruct data; (split; [eexists; reflexivity|]); [reflexivity|].
    simpl. now rewrite Hw.
Qed.
End LastRender.

(** Of two responses, the one that arrives later decides the display:
    after an earlier request has settled in any way, a response handed
    to a renderer gives the display it would have given alone, and the
    saved words are untouched by both. *)
Theorem later_response_wins
    (cb1 cb2 : callback) (earlier : settled response) (resp : response)
    (data : list item) (pg : page) :
  is_renderer cb1 -> is_renderer cb2 ->
  response_json resp = Fulfilled data ->
  no_proto_key data (get_prop "numSyllables") ->
  let first := fst (settle_request earlier cb1 pg) in
  let second := fst (settle_request (Fulfilled resp) cb2 first) in
  wordOutput second = wordOutput (fst (settle_request (Fulfilled resp) cb2 pg))
  /\ snd (settle_request (Fulfilled resp) cb2 first) = Fulfilled tt
  /\ savedWordsArray second = savedWordsArray pg
  /\ savedWords_innerHTML second = savedWords_innerHTML pg.
Proof.
  intros H1 H2 Hjson Hp first second.
  destruct (settle_frame cb1 H1 earlier pg) as [Hw [Ha Hs]].
  fold first in Hw, Ha, Hs.
  destruct (settle_frame cb2 H2 (Fulfilled resp) first) as [_ [Ha2 Hs2]].
  fold second in Ha2, Hs2.
  destruct (renderer_display cb2 H2 data first pg Hp Hw) as [[p Hn] Hd].
  subst second. unfold settle_request in *. simpl in *. rewrite Hjson in *.
  rewrite Hn in *. simpl in *.
  repeat split; try congruence.
  rewrite Hd. now destruct (cb2 data pg).
Qed.

Lemma later_response_wins_witness :
  let pg := initial_page "night" [Markup "<h2>...loading<h2>"] in
  let first := {| response_json := Fulfilled [word_result "light" 1] |} in
  let last := {| response_json := Fulfilled [word_result "dark" 1] |} in
  wordOutput (fst (settle_request (Fulfilled last) showSynonyms
                     (fst (settle_request (Fulfilled first) showRhymes pg))))
  = wordOutput (fst (settle_request (Fulfilled last) showSynonyms pg)).
Proof.
  intros pg first last.
  refine (proj1 (later_response_wins showRhymes showSynonyms (Fulfilled first)
                   last [word_result "dark" 1] pg
                   (or_introl eq_refl) (or_intror eq_refl) eq_refl _)).
  intros a Ha. simpl in Ha. destruct Ha as [<-|[]]. vm_compute. discriminate.
Defined.

(* ================================================================== *)
(** * More on groupBy *)
(* ================================================================== *)

Lemma group_step_keys f m o :
  map_keys (group_step f m o)
  = if map_has (f o) m then map_keys m else map_keys m ++ [f o].
Proof.
  unfold group_step, map_has, map_get, map_set, map_keys, assoc_has.
  destruct (assoc_get same_value_zero (f o) m) as [a|] eqn:E.
  - rewrite E, (assoc_set_keys _ same_value_zero_spec).
    unfold assoc_has. now rewrite E.
  - rewrite (assoc_get_set_same _ same_value_zero_spec).
    rewrite !(assoc_set_keys _ same_value_zero_spec). unfold assoc_has.
    now rewrite E, (assoc_get_set_same _ same_value_zero_spec).
Qed.

(** The [Map] after the first loop: one entry for each group name of the
    input and no other, a new name going behind the names seen before;
    every entry holds the items of its name in input order. *)
Theorem group_map_invariant (objects : list item) (f : item -> value) :
  let groupedObjects := group_map objects f in
  NoDup (map_keys groupedObjects)
  /\ (forall k, In k (map_keys groupedObjects)
                <-> exists o, In o objects /\ f o = k)
  /\ (forall k, map_get k groupedObjects
                = if existsb (key_is f k) objects
                  then Some (filter (key_is f k) objects) else None)
  /\ (forall o, map_keys (group_map (objects ++ [o]) f)
                = if existsb (key_is f (f o)) objects
                  then map_keys groupedObjects
                  else map_keys groupedObjects ++ [f o]).
Proof.
  intros m. subst m.
  split; [apply group_map_nodup|].
  split; [intros k; apply in_map_keys|].
  split; [intros k; apply map_get_group_map|].
  intros o. rewrite group_map_snoc, group_step_keys.
  unfold map_has, assoc_has. fold (map_get (f o) (group_map objects f)).
  rewrite map_get_group_map.
  now destruct (existsb (key_is f (f o)) objects).
Qed.

(** Every group of the output is not empty and is, for one group name
    whose string form is the key, the whole sub-sequence of the input
    with that name: groups are never mixed and hold input items only. *)
Theorem groupBy_groups_sound
    (objects : list item) (property : selector) (s : string) (g : list item) :
  let f := as_function property in
  own_get s (groupBy objects property) = Some g ->
  g <> []
  /\ exists k, to_property_key k = s
               /\ g = filter (key_is f k) objects
               /\ forall o, In o g <-> In o objects /\ f o = k.
Proof.
  intros f Hg. subst f. rewrite own_get_groupBy in Hg.
  destruct (winner objects (as_function property) s) as [k|] eqn:W;
    [|discriminate].
  injection Hg as <-.
  destruct (winner_some _ _ _ _ W) as [Hk [_ [o [Ho Hfo]]]].
  split.
  - intros E. assert (Hin : In o (filter (key_is (as_function property) k)
                                         objects))
      by (apply filter_key_is_in; now split).
    rewrite E in Hin. contradiction.
  - exists k. split; [assumption|]. split; [reflexivity|].
    intros o'. apply filter_key_is_in.
Qed.

Lemma groupBy_groups_sound_witness :
  let objects := [item_n "a" 2; item_s "b" "2"; item_n "c" 1; item_s "d" "2"] in
  [item_s "b" "2"; item_s "d" "2"] <> []
  /\ exists k, to_property_key k = "2"
               /\ [item_s "b" "2"; item_s "d" "2"]
                  = filter (key_is (get_prop "n") k) objects
               /\ forall o, In o [item_s "b" "2"; item_s "d" "2"]
                            <-> In o objects /\ get_prop "n" o = k.
Proof.
  intros objects.
  exact (groupBy_groups_sound objects (PropName "n") "2"
           [item_s "b" "2"; item_s "d" "2"] eq_refl).
Defined.




(** ** The key order does not depend on the input order *)

Lemma string_lt_irrefl s : ~ string_lt s s.
Proof. unfold string_lt. now rewrite string_compare_refl. Qed.

Lemma string_lt_trans s t u : string_lt s t -> string_lt t u -> string_lt s u.
Proof.
  unfold string_lt. intros H1 H2.
  apply String_as_OT.cmp_lt in H1, H2. apply String_as_OT.cmp_lt.
  eapply String_as_OT.lt_trans; eassumption.
Qed.

(** A strictly ascending list is determined by its members. *)
Lemma strictly_sorted_unique l l' :
  StronglySorted string_lt l -> StronglySorted string_lt l' ->
  (forall s, In s l <-> In s l') -> l = l'.
Proof.
  intros Hl. revert l'.
  induction Hl as [|a l Hs IH Ha]; intros l' Hl' Hmem.
  - destruct l' as [|b l']; [reflexivity|].
    destruct (proj2 (Hmem b) (or_introl eq_refl)).
  - destruct Hl' as [|b l' Hs' Hb].
    { destruct (proj1 (Hmem a) (or_introl eq_refl)). }
    rewrite Forall_forall in Ha, Hb.
    assert (Hab : a = b).
    { destruct (proj1 (Hmem a) (or_introl eq_refl)) as [E|Hin]; [now symmetry|].
      destruct (proj2 (Hmem b) (or_introl eq_refl)) as [E|Hin']; [assumption|].
      exfalso. apply (string_lt_irrefl a).
      apply string_lt_trans with b; [now apply Ha | now apply Hb]. }
    subst b. f_equal. apply IH; [assumption|].
    intros s. split; intros Hin.
    + destruct (proj1 (Hmem s) (or_intror Hin)) as [E|H]; [|assumption].
      subst s. exfalso. apply (string_lt_irrefl a). now apply Ha.
    + destruct (proj2 (Hmem s) (or_intror Hin)) as [E|H]; [|assumption].
      subst s. exfalso. apply (string_lt_irrefl a). now apply Hb.
Qed.

Lemma existsb_perm {A : Type} (p : A -> bool) l l' :
  Permutation l l' -> existsb p l = existsb p l'.
Proof.
  intros H. destruct (existsb p l) eqn:E, (existsb p l') eqn:E';
    try reflexivity; exfalso.
  - apply existsb_exists in E. destruct E as [x [Hx Hp]].
    apply (Permutation_in _ H) in Hx.
    assert (existsb p l' = true) by (apply existsb_exists; eauto). congruence.
  - apply existsb_exists in E'. destruct E' as [x [Hx Hp]].
    apply (Permutation_in _ (Permutation_sym H)) in Hx.
    assert (existsb p l = true) by (apply existsb_exists; eauto). congruence.
Qed.

Section CreatedMembers.
Variable objects : list item.
Variable property : selector.
Let f := as_function property.

(** The own keys are the string forms of the group names, but for
    ["__proto__"]. *)
Lemma in_created s :
  In s (map fst (own (groupBy objects property)))
  <-> s <> "__proto__"
      /\ exists o, In o objects /\ to_property_key (f o) = s.
Proof.
  transitivity (own_get s (groupBy objects property) <> None).
  - unfold own_get. rewrite (assoc_get_none _ String.eqb_spec).
    destruct (in_dec string_dec s (map fst (own (groupBy objects property))));
      tauto.
  - rewrite own_get_groupBy. fold f. split.
    + intros H. destruct (winner objects f s) as [k|] eqn:W; [|now elim H].
      destruct (winner_some _ _ _ _ W) as [Hk [Hs [o [Ho Hfo]]]].
      fold f in Hfo. split; [assumption|]. exists o. split; congruence.
    + intros [Hs [o [Ho Hk]]] H.
      destruct (winner objects f s) as [k|] eqn:W; [discriminate|].
      now apply (winner_none objects property s W Hs o Ho).
Qed.

(** The keys in creation order: a strictly ascending list, then the
    ["undefined"] of the group name [undefined]. *)
Lemma created_shape :
  exists asc,
    map fst (own (groupBy objects property)) = asc ++ undefined_tail objects f
    /\ StronglySorted string_lt asc
    /\ forall s, In s asc
                 <-> In s (map fst (own (groupBy objects property)))
                     /\ ~ In s (undefined_tail objects f).
Proof.
  destruct (groupBy_created_keys objects property)
    as [pre [Hnot [Hsub [Hsorted Hkeys]]]].
  fold f in Hkeys.
  exists (created_keys (group_map objects f) pre).
  split; [exact Hkeys|]. split.
  - apply created_keys_sorted; try assumption.
    intros k Hk. apply (write_order_written objects property), Hsub, Hk.
  - pose proof (fold_result_nodup (group_map objects f)
                  (write_order objects f) empty_object (NoDup_nil _)) as Hnd.
    change (NoDup (map fst (own (groupBy objects property)))) in Hnd.
    rewrite Hkeys in Hnd |- *. intros s. rewrite in_app_iff. split.
    + intros Hs. split; [now left|]. intros Ht.
      apply NoDup_app_remove_l in Hnd as Hnd'.
      revert Hs Ht. clear -Hnd. intros Hs Ht.
      induction (created_keys (group_map objects f) pre) as [|a l IH];
        [contradiction|].
      simpl in Hnd. inversion Hnd as [|? ? Ha Hnd']; subst.
      destruct Hs as [->|Hs]; [|now apply IH].
      apply Ha, in_or_app. now right.
    + tauto.
Qed.
End CreatedMembers.

(** The keys of the output are enumerated in the same order for every
    arrangement of the same input items. *)
Theorem groupBy_keys_of_permutation
    (objects objects' : list item) (property : selector) :
  Permutation objects objects' ->
  object_keys (groupBy objects property)
  = object_keys (groupBy objects' property).
Proof.
  intros Hperm.
  set (f := as_function property).
  assert (Htail : undefined_tail objects f = undefined_tail objects' f).
  { unfold undefined_tail.
    now rewrite (existsb_perm _ _ _ Hperm),
                (existsb_perm (key_is f (VString "undefined")) _ _ Hperm). }
  assert (Hmem : forall s,
             In s (map fst (own (groupBy objects property)))
             <-> In s (map fst (own (groupBy objects' property)))).
  { intros s. rewrite !in_created. split; intros [Hs [o [Ho Hk]]];
      (split; [assumption|]); exists o; (split; [|assumption]).
    - now apply (Permutation_in _ Hperm).
    - now apply (Permutation_in _ (Permutation_sym Hperm)). }
  destruct (created_shape objects property) as [asc [E [Hs Hin]]].
  destruct (created_shape objects' property) as [asc' [E' [Hs' Hin']]].
  fold f in E, E', Hin, Hin'.
  unfold object_keys, own_keys. rewrite E, E', <- Htail. do 2 f_equal.
  apply strictly_sorted_unique; try assumption.
  intros s. rewrite Hin, Hin', <- Htail, Hmem. tauto.
Qed.

Lemma groupBy_keys_of_permutation_witness :
  object_keys (groupBy [item_n "a" 2; item_s "b" "x"; item_n "c" 1]
                       (PropName "n"))
  = object_keys (groupBy [item_s "b" "x"; item_n "c" 1; item_n "a" 2]
                         (PropName "n")).
Proof.
  apply groupBy_keys_of_permutation.
  apply (perm_trans (perm_swap _ _ _)). apply perm_skip. apply perm_swap.
Defined.

(** ** Numeric group names *)

Lemma array_index_of_number n :
  (0 <= n < 4294967295)%Z -> array_index (to_string (VNumber n)) = Some n.
Proof.
  intros [Hlo Hhi]. unfold array_index.
  rewrite number_string_parse, DecimalZ.of_to, String.eqb_refl.
  apply Z.leb_le in Hlo. apply Z.ltb_lt in Hhi. now rewrite Hlo, Hhi.
Qed.

(** When every group name is a Number from 0 to 2^32 - 2, as a syllable
    count is, every key of the output is the decimal form of a group
    name and the keys are enumerated in ascending numeric order: ["9"]
    comes before ["10"]. *)
Theorem groupBy_counts_ascending (objects : list item) (property : selector) :
  let f := as_function property in
  (forall o, In o objects ->
     exists n, f o = VNumber n /\ (0 <= n < 4294967295)%Z) ->
  StronglySorted index_lt (object_keys (groupBy objects property))
  /\ forall s, In s (object_keys (groupBy objects property))
               <-> exists o n, In o objects /\ f o = VNumber n
                               /\ s = to_string (VNumber n).
Proof.
  intros f Hnum.
  assert (Hidx : forall s, In s (map fst (own (groupBy objects property))) ->
                           is_array_index s = true).
  { intros s Hs. apply in_created in Hs. destruct Hs as [_ [o [Ho Hk]]].
    fold f in Hk. destruct (Hnum o Ho) as [n [Hn Hb]].
    rewrite Hn in Hk. subst s. unfold is_array_index, to_property_key.
    now rewrite (array_index_of_number n Hb). }
  split.
  - unfold object_keys, own_keys, ordinary_keys.
    rewrite (filter_nil_iff (fun s => negb (is_array_index s))), app_nil_r.
    + apply index_sort_sorted.
      * rewrite Forall_forall. intros s Hs. now apply filter_In in Hs.
      * apply NoDup_filter. unfold groupBy. apply fold_result_nodup.
        constructor.
    + intros s Hs. now rewrite (Hidx s Hs).
  - intros s. rewrite in_object_keys.
    transitivity (In s (map fst (own (groupBy objects property)))).
    { unfold own_get. rewrite (assoc_get_none _ String.eqb_spec).
      destruct (in_dec string_dec s (map fst (own (groupBy objects property))));
        tauto. }
    rewrite in_created. fold f. split.
    + intros [_ [o [Ho Hk]]]. destruct (Hnum o Ho) as [n [Hn _]].
      exists o, n. repeat split; try assumption. now rewrite <- Hk, Hn.
    + intros [o [n [Ho [Hn ->]]]]. split.
      * intros E. apply (proto_key_is_string (VNumber n)) in E. discriminate E.
      * exists o. split; [assumption | now rewrite Hn].
Qed.

Lemma groupBy_counts_ascending_witness :
  StronglySorted index_lt
    (object_keys (groupBy [word_result "x" 10; word_result "y" 9;
                           word_result "z" 10]
                          (PropName "numSyllables"))).
Proof.
  refine (proj1 (groupBy_counts_ascending
                   [word_result "x" 10; word_result "y" 9; word_result "z" 10]
                   (PropName "numSyllables") _)).
  intros o Ho. simpl in Ho.
  destruct Ho as [<-|[<-|[<-|[]]]]; eexists; (split; [reflexivity | lia]).
Defined.

(** ** Items are dropped, never duplicated *)

Section Survivors.
Variable f : item -> value.

Lemma filter_keys_split k ks l :
  ~ In k ks ->
  Permutation
    (filter (key_is f k) l
       ++ filter (fun o => existsb (same_value_zero (f o)) ks) l)
    (filter (fun o => existsb (same_value_zero (f o)) (k :: ks)) l).
Proof.
  intros Hk. induction l as [|o l IH]; [reflexivity|].
  cbn [filter existsb]. unfold key_is at 1.
  destruct (same_value_zero_spec (f o) k) as [E|E].
  - assert (Hn : existsb (same_value_zero (f o)) ks = false).
    { apply not_true_iff_false. intros H. apply existsb_exists in H.
      destruct H as [x [Hx Hfx]]. apply same_value_zero_eq in Hfx.
      apply Hk. congruence. }
    rewrite Hn. cbn [orb app]. now constructor.
  - cbn [orb]. destruct (existsb (same_value_zero (f o)) ks); [|exact IH].
    symmetry. apply Permutation_cons_app. now symmetry.
Qed.

(** The groups of distinct names hold the items with one of the names,
    once each. *)
Lemma groups_of_names ks l :
  NoDup ks ->
  Permutation (flat_map (fun k => filter (key_is f k) l) ks)
              (filter (fun o => existsb (same_value_zero (f o)) ks) l).
Proof.
  induction 1 as [|k ks Hk Hnd IH]; cbn [flat_map].
  - rewrite filter_nil_iff; [reflexivity | reflexivity].
  - rewrite IH. now apply filter_keys_split.
Qed.
End Survivors.

Section Dropped.
Variable objects : list item.
Variable property : selector.
Let f := as_function property.

Lemma groups_of_winners ss :
  flat_map (group_at (groupBy objects property)) ss
  = flat_map (fun k => filter (key_is f k) objects)
             (winners_of objects property ss).
Proof.
  induction ss as [|s ss IH]; [reflexivity|].
  cbn [flat_map winners_of]. fold (winners_of objects property ss).
  rewrite flat_map_app, IH, group_at_groupBy. fold f.
  destruct (winner objects f s); cbn [flat_map]; now rewrite ?app_nil_r.
Qed.

Lemma in_winners_of ss k :
  In k (winners_of objects property ss) -> In (to_property_key k) ss.
Proof.
  unfold winners_of. fold f. rewrite in_flat_map. intros [s [Hs Hk]].
  destruct (winner objects f s) as [w|] eqn:W; [|contradiction].
  destruct Hk as [<-|[]]. destruct (winner_some _ _ _ _ W) as [E _].
  now rewrite E.
Qed.

Lemma winners_of_nodup ss :
  NoDup ss -> NoDup (winners_of objects property ss).
Proof.
  induction 1 as [|s ss Hs Hnd IH]; [constructor|].
  cbn [winners_of flat_map]. fold (winners_of objects property ss). fold f.
  destruct (winner objects f s) as [w|] eqn:W; [|exact IH].
  constructor; [|exact IH]. intros Hin. apply in_winners_of in Hin.
  destruct (winner_some _ _ _ _ W) as [E _]. congruence.
Qed.
End Dropped.

(** The groups of the output hold input items, each at most as often as
    the input does: with the items that were dropped they make up the
    input again.  An item is dropped when the group of its group name
    was overwritten or became the prototype. *)
Theorem groupBy_never_duplicates (objects : list item) (property : selector) :
  exists dropped,
    Permutation (flatten (groupBy objects property) ++ dropped) objects
    /\ forall o, In o dropped ->
         forall s g, own_get s (groupBy objects property) = Some g ->
                     ~ In o g.
Proof.
  set (f := as_function property).
  set (ks := winners_of objects property
               (sorted_keys (object_keys (groupBy objects property)))).
  exists (filter (fun o => negb (existsb (same_value_zero (f o)) ks)) objects).
  split.
  - unfold flatten. rewrite groups_of_winners. fold f. fold ks.
    rewrite (groups_of_names f ks objects).
    + apply filter_partition_perm.
    + apply winners_of_nodup, sorted_object_keys_nodup.
  - intros o Ho s g Hg Hin. apply filter_In in Ho. destruct Ho as [_ Ho].
    apply negb_true_iff, not_true_iff_false in Ho. apply Ho.
    apply existsb_exists. exists (f o). split; [|apply same_value_zero_refl].
    rewrite own_get_groupBy in Hg. fold f in Hg.
    destruct (winner objects f s) as [k|] eqn:W; [|discriminate].
    injection Hg as <-. apply filter_key_is_in in Hin. destruct Hin as [_ E].
    rewrite E. unfold ks, winners_of. apply in_flat_map. exists s. split.
    + apply in_sorted_object_keys. fold f. congruence.
    + fold f. rewrite W. now left.
Qed.

(* ================================================================== *)
(** * A click on "show synonyms", from the request to the display *)
(* ================================================================== *)

(** A click on "show synonyms" starts one request, for the [ml] URL of
    the word in the input field, and keeps the requests in flight.  When
    the request succeeds the display gets one save control for each word
    of the response, in the order of the response; when it fails the
    loading indicator stays and the error is on the console. *)
Theorem synonyms_click_round (w : world) (outcome : settled response) :
  let w' := showSynonymsButton_click w in
  let url := ("https://api.datamuse.com/words?ml="
                ++ form_encode (wordInput_value (the_page w)))%string in
  let shown := fst (settle_request outcome showSynonyms (the_page w')) in
  in_flight w' = in_flight w ++ [{| req_url := url;
                                    req_callback := showSynonyms |}]
  /\ savedWordsArray shown = savedWordsArray (the_page w)
  /\ match then_ outcome response_json with
     | Fulfilled data =>
         displayed_save_controls shown = map (get_prop "word") data
         /\ console shown = console (the_page w)
     | Rejected err =>
         wordOutput shown = [Markup "<h2>...loading<h2>"]
         /\ console shown = console (the_page w) ++ [err]
     end.
Proof.
  intros w' url shown. split; [reflexivity|].
  subst shown. unfold settle_request.
  destruct (then_ outcome response_json) as [data|err]; [|repeat split].
  destruct (showSynonyms_shape data (the_page w')) as [p [Hn [Hc [Ha Hk]]]].
  rewrite Hn. simpl. rewrite Hc, Ha, Hk. repeat split.
Qed.
